(** * ElectraJs wallet: a shallow embedding of [src/wallet/index.ts]
    and of the [Rpc] class of [src/libs/rpc/index.ts]

    The [Wallet] class is embedded as functions over an explicit world:
    the JavaScript heap of address objects (the wallet stores references
    to objects that its methods mutate in place), the fields of the
    wallet instance, and the log of balance requests sent to the web
    service.  Every method is a computation in a state-and-exception
    monad, so that what a call leaves behind when it throws is part of
    its result.

    The methods of [Rpc] are [async]: a call returns a promise, which
    is known here by the way it settles.  The wallet awaits the promise
    of [getStakingInfo]; it drops the promises of [lock] and [unlock].

    Address objects are shared: the wallet, its caller and the exported
    data refer to the same objects, so they live in the heap and are
    known by reference.  The arrays of the wallet are lists of
    references; nothing proved here depends on the identity of an array.
    Strings are [string]s, counts and indices are integers, and a
    balance is a JavaScript number, that is a binary64 float. *)

From Stdlib Require Import ZArith Lia Floats.PrimFloat.
From stdpp Require Import base strings pretty list sets.

#[local] Set Warnings "-inexact-float".
#[local] Open Scope Z_scope.
#[local] Open Scope string_scope.
#[local] Open Scope list_scope.

(** ** Data model *)

(** Modelled from the spec: the two values of [WalletState], declared in
    [src/wallet/types.ts]. *)
Inductive WalletState := EMPTY | READY.

#[global] Instance WalletState_eq_dec : EqDecision WalletState.
Proof. solve_decision. Defined.

(** Modelled from the spec: the [Address] objects of [src/types.ts] that
    the Electra library returns (section 3 of the specification, without
    the label). *)
Module Address.
Record t := mk {
  hash : string;
  isCiphered : bool;
  isHD : bool;
  privateKey : string
}.
End Address.

(** Modelled from the spec: [WalletAddress] of [src/wallet/types.ts], an
    [Address] with a nullable [label]. *)
Record WalletAddress := mkWalletAddress {
  hash : string;
  isCiphered : bool;
  isHD : bool;
  label : option string;
  privateKey : string
}.

(** [{ ...address, label: null }] *)
Definition withLabelNull (address : Address.t) : WalletAddress :=
  {| hash := Address.hash address;
     isCiphered := Address.isCiphered address;
     isHD := Address.isHD address;
     label := None;
     privateKey := Address.privateKey address |}.

(** Field assignments [address.f = v]. *)
Definition set_hash (v : string) (a : WalletAddress) : WalletAddress :=
  {| hash := v; isCiphered := isCiphered a; isHD := isHD a;
     label := label a; privateKey := privateKey a |}.
Definition set_isCiphered (v : bool) (a : WalletAddress) : WalletAddress :=
  {| hash := hash a; isCiphered := v; isHD := isHD a;
     label := label a; privateKey := privateKey a |}.
Definition set_isHD (v : bool) (a : WalletAddress) : WalletAddress :=
  {| hash := hash a; isCiphered := isCiphered a; isHD := v;
     label := label a; privateKey := privateKey a |}.
Definition set_privateKey (v : string) (a : WalletAddress) : WalletAddress :=
  {| hash := hash a; isCiphered := isCiphered a; isHD := isHD a;
     label := label a; privateKey := v |}.

(** [RpcAuth] and the two fields of an [Rpc] instance
    ([src/libs/rpc/index.ts]). *)
Record RpcAuth := { username : string; password : string }.
Record Rpc := { auth : RpcAuth; uri : string }.

(** Modelled from the spec: the two fields of [Settings] that the
    constructor reads; [None] is [undefined]. *)
Record Settings := {
  rpcServerUri : option string;
  rpcServerAuth : option RpcAuth
}.

(** Wallet transactions are opaque to this class. *)
Definition WalletTransaction := string.

(** A reference to an address object of the heap. *)
Abbreviation loc := nat (only parsing).

(** The private fields of a [Wallet] instance.  The two arrays and the
    master node hold references. *)
Record Wallet := mkWallet {
  ADDRESSES : list loc;
  RANDOM_ADDRESSES : list loc;
  IS_LOCKED : bool;
  MASTER_NODE_ADDRESS : option loc;
  MNEMONIC : option string;
  rpc : option Rpc;
  STATE : WalletState;
  TRANSACTIONS : list WalletTransaction
}.

Definition set_ADDRESSES (v : list loc) (w : Wallet) : Wallet :=
  mkWallet v (RANDOM_ADDRESSES w) (IS_LOCKED w) (MASTER_NODE_ADDRESS w)
           (MNEMONIC w) (rpc w) (STATE w) (TRANSACTIONS w).
Definition set_RANDOM_ADDRESSES (v : list loc) (w : Wallet) : Wallet :=
  mkWallet (ADDRESSES w) v (IS_LOCKED w) (MASTER_NODE_ADDRESS w)
           (MNEMONIC w) (rpc w) (STATE w) (TRANSACTIONS w).
Definition set_IS_LOCKED (v : bool) (w : Wallet) : Wallet :=
  mkWallet (ADDRESSES w) (RANDOM_ADDRESSES w) v (MASTER_NODE_ADDRESS w)
           (MNEMONIC w) (rpc w) (STATE w) (TRANSACTIONS w).
Definition set_MASTER_NODE_ADDRESS (v : option loc) (w : Wallet) : Wallet :=
  mkWallet (ADDRESSES w) (RANDOM_ADDRESSES w) (IS_LOCKED w) v
           (MNEMONIC w) (rpc w) (STATE w) (TRANSACTIONS w).
Definition set_MNEMONIC (v : option string) (w : Wallet) : Wallet :=
  mkWallet (ADDRESSES w) (RANDOM_ADDRESSES w) (IS_LOCKED w)
           (MASTER_NODE_ADDRESS w) v (rpc w) (STATE w) (TRANSACTIONS w).
Definition set_STATE (v : WalletState) (w : Wallet) : Wallet :=
  mkWallet (ADDRESSES w) (RANDOM_ADDRESSES w) (IS_LOCKED w)
           (MASTER_NODE_ADDRESS w) (MNEMONIC w) (rpc w) v (TRANSACTIONS w).
Definition set_TRANSACTIONS (v : list WalletTransaction) (w : Wallet) : Wallet :=
  mkWallet (ADDRESSES w) (RANDOM_ADDRESSES w) (IS_LOCKED w)
           (MASTER_NODE_ADDRESS w) (MNEMONIC w) (rpc w) (STATE w) v.

(** [WalletData], the value [export] returns. *)
Module WalletData.
Record t := mk {
  chainsCount : nat;
  masterNodeAddress : option loc;
  randomAddresses : list loc
}.
End WalletData.

(** ** Errors *)

(** One constructor for each [throw new Error(...)] of the class, named
    after the method and the guard that throws.  [Thrown] is an error
    raised by a collaborator (Crypto, Electra, the web services),
    [TypeError] a property read on [undefined].  [Stuck] has no
    JavaScript counterpart: in the model a reference may point outside
    the heap. *)
Inductive error :=
| ErrAddressesNotReady
| ErrAllAddressesNotReady
| ErrRandomAddressesNotReady
| ErrIsHDNotReady
| ErrIsLockedNotReady
| ErrMnemonicNotReady
| ErrMnemonicUndefined
| ErrTransactionsNotReady
| ErrGenerateReady
| ErrGenerateInvalidMnemonic
| ErrLockNotReady
| ErrUnlockNotReady
| ErrExportNotReady
| ErrExportUnlocked
| ErrExportLocked
| ErrImportMasterNodeExists
| ErrImportNoPassphrase
| ErrImportAnotherMasterNode
| ErrResetEmpty
| ErrGetBalanceEmpty
| ErrGetBalanceForeign
| Thrown (message : string)
| TypeError
| Stuck.

#[global] Instance error_eq_dec : EqDecision error.
Proof. solve_decision. Defined.

Inductive ErrorKind :=
| StateError
| InvariantViolation
| MembershipError.

(** Modelled from the spec: the error taxonomy of section 7.  The source
    throws plain [Error] objects that differ by their message only; the
    errors of collaborators are propagated as they are and get no kind
    here. *)
Definition kind (e : error) : option ErrorKind :=
  match e with
  | ErrAddressesNotReady | ErrAllAddressesNotReady
  | ErrRandomAddressesNotReady | ErrIsHDNotReady | ErrIsLockedNotReady
  | ErrMnemonicNotReady | ErrTransactionsNotReady
  | ErrGenerateReady | ErrLockNotReady | ErrUnlockNotReady
  | ErrExportNotReady | ErrResetEmpty | ErrGetBalanceEmpty =>
      Some StateError
  | ErrGenerateInvalidMnemonic | ErrExportUnlocked | ErrExportLocked
  | ErrImportMasterNodeExists | ErrImportNoPassphrase
  | ErrImportAnotherMasterNode =>
      Some InvariantViolation
  | ErrGetBalanceForeign => Some MembershipError
  | ErrMnemonicUndefined | Thrown _ | TypeError | Stuck => None
  end.

(** ** The world and its monad *)

Record World := mkWorld {
  heap : list WalletAddress;
  this : Wallet;
  requests : list string
}.

(** A computation returns a value or throws, and leaves a world either
    way: nothing is rolled back when a method throws. *)
Definition M (A : Type) : Type := World → (error + A) * World.

Definition ret {A} (a : A) : M A := λ σ, (inr a, σ).
Definition throw {A} (e : error) : M A := λ σ, (inl e, σ).
Definition bind {A B} (c : M A) (k : A → M B) : M B :=
  λ σ, match c σ with
       | (inr a, σ') => k a σ'
       | (inl e, σ') => (inl e, σ')
       end.

Notation "'let*' x ':=' c 'in' k" := (bind c (λ x, k))
  (at level 10, x name, c at level 100, k at level 200,
   format "'[v' 'let*'  x  ':='  c  'in' '/' k ']'").
Notation "c '>>' k" := (bind c (λ _, k))
  (at level 100, k at level 200, right associativity,
   format "'[v' c  '>>' '/' k ']'").

(** The outcome of a call to a collaborator: it returns a value, or
    throws an error of its own, known here by its message. *)
Definition liftE {A} (r : string + A) : M A :=
  match r with
  | inl message => throw (Thrown message)
  | inr a => ret a
  end.

Definition getThis : M Wallet := λ σ, (inr (this σ), σ).
Definition modifyThis (f : Wallet → Wallet) : M unit :=
  λ σ, (inr tt, mkWorld (heap σ) (f (this σ)) (requests σ)).

(** Reading an object through a reference. *)
Definition deref (l : loc) : M WalletAddress :=
  λ σ, match heap σ !! l with
       | Some a => (inr a, σ)
       | None => (inl Stuck, σ)
       end.

(** In-place assignment to a field of the object at [l]. *)
Definition assign (l : loc) (f : WalletAddress → WalletAddress) : M unit :=
  λ σ, match heap σ !! l with
       | Some a => (inr tt, mkWorld (<[l := f a]> (heap σ)) (this σ) (requests σ))
       | None => (inl Stuck, σ)
       end.

(** A new object: its reference is the next free index of the heap. *)
Definition alloc (a : WalletAddress) : M loc :=
  λ σ, (inr (length (heap σ)), mkWorld (heap σ ++ [a]) (this σ) (requests σ)).

(** [array.map(f)] for a callback that mutates the objects and returns
    them: the elements are visited from first to last and the resulting
    array holds the same references. *)
Fixpoint forEach (f : loc → M unit) (ls : list loc) : M unit :=
  match ls with
  | [] => ret tt
  | l :: ls => f l >> forEach f ls
  end.

(** ** JavaScript values and promises *)

(** A property or a variable that may be [undefined], [null] or hold a
    value. *)
Inductive field (A : Type) :=
| Undefined
| Null
| Value (a : A).
Arguments Undefined {A}.
Arguments Null {A}.
Arguments Value {A} a.

(** A promise, known by the way it settles: it is rejected with a
    reason or fulfilled with a value, and either may be [undefined] or
    [null]. *)
Inductive Promise (E A : Type) :=
| Rejected (reason : field E)
| Fulfilled (value : field A).
Arguments Rejected {E A} reason.
Arguments Fulfilled {E A} value.

(** Modelled from the spec: [to] of the package await-to-js, awaited.
    It gives [[null, data]] for a promise fulfilled with [data] and
    [[err, undefined]] for a promise rejected with [err]. *)
Definition to {E A} (promise : Promise E A) : field E * field A :=
  match promise with
  | Fulfilled data => (Null, data)
  | Rejected err => (err, Undefined)
  end.

(** A call of an [async] function throws nothing: it returns a promise
    at once, and what its body returns or throws settles that promise
    later. *)
Definition async {E A} (promise : Promise E A) : error + Promise E A :=
  inr promise.

(** Modelled from the spec: the helper [tryCatch] of
    [src/helpers/tryCatch.ts], which is not part of the embedded files.
    It calls its argument and gives [[null, value]] when the call
    returns [value], and [[err, undefined]] when the call throws [err];
    [callback] is the outcome of that call. *)
Definition tryCatch {A} (callback : error + A) : option error * option A :=
  match callback with
  | inr value => (None, Some value)
  | inl err => (Some err, None)
  end.

(** ** The [Rpc] class of [src/libs/rpc/index.ts] *)

(** Modelled from the spec: the three fields of the result of the RPC
    command [getstakinginfo] that the wallet reads
    ([src/libs/rpc/types.ts]). *)
Module StakingInfo.
Record t := mk {
  netstakeweight : float;
  expectedtime : float;
  weight : float
}.
End StakingInfo.

Module RpcQuery.
(** Modelled from the spec: [RpcMethod], [RpcMethodParams] and
    [RpcMethodResult] of [src/libs/rpc/types.ts].  The methods are the
    commands named in [src/libs/rpc/index.ts]; a parameter is a string,
    a number or a boolean; the result of [getstakinginfo] is the record
    above, and the results the wallet never reads are kept as text. *)
Inductive RpcMethod :=
| walletpassphrasechange | checkwallet | createrawtransaction | encryptwallet
| getaccount | getbalance | getbestblockhash | getblock | getconnectioncount
| getdifficulty | getinfo | getblockcount | getnewaddress | getpeerinfo
| dumpprivkey | getstakinginfo | gettransaction | importprivkey
| listaddressgroupings | listreceivedbyaddress | listtransactions
| listunspent | walletlock | makekeypair | sendrawtransaction | signmessage
| signrawtransaction | stop | walletpassphrase | validateaddress
| validatepubkey | verifymessage.

Inductive Param :=
| PString (s : string)
| PNumber (n : Z)
| PBoolean (b : bool).

Definition RpcMethodResult (T : RpcMethod) : Type :=
  match T with
  | getstakinginfo => StakingInfo.t
  | _ => string
  end.

(** The request body and the configuration [query] builds; [params] is
    an array or [null]. *)
Record JsonRpcRequest := {
  jsonrpc : string;
  method : RpcMethod;
  params : option (list Param)
}.
Record AxiosRequestConfig := {
  headers : list (string * string);
  config_auth : option RpcAuth
}.

(** What [query] reads of a fulfilled request: the data of the
    response, and the result the data hold. *)
Record JsonRpcResponse (T : RpcMethod) := {
  result : field (RpcMethodResult T)
}.
Arguments result {T} _.
Record AxiosResponse (T : RpcMethod) := {
  data : field (JsonRpcResponse T)
}.
Arguments data {T} _.

(** What [query] reads of the reason of a rejected request: a string,
    or a value with a message and a response, whose data may carry an
    error with a code and a message.  Any of these properties may be
    missing. *)
Record NodeError := { code : field Z; message : field string }.
Record ErrorData := { error : field NodeError }.
Record ErrorResponse := { error_data : field ErrorData }.
Inductive AxiosError :=
| ErrorString (text : string)
| ErrorObject (error_message : field string) (response : field ErrorResponse).

(** The values [query] throws: an [EJError], an [Error] with its
    message, or the [TypeError] of a property read on [undefined] or
    [null]. *)
Inductive thrown :=
| EJError (key : string)
| Error (text : string)
| TypeError.

(** The remote node as the class reaches it: [Axios.post], called with
    the type of the response it expects, and the table
    [RPC_ERRORS_TRANSLATION] of [src/libs/rpc/constants.ts]. *)
Class RemoteNode := {
  post : ∀ T : RpcMethod,
    string → JsonRpcRequest → AxiosRequestConfig
    → Promise AxiosError (AxiosResponse T);
  RPC_ERRORS_TRANSLATION : string → option string
}.

Definition CONFIG_DEFAULT : AxiosRequestConfig :=
  {| headers := [("Content-Type", "application/json")]; config_auth := None |}.

(** [String(code)] for a code that is an integer, if there is one. *)
Definition String_of_code (code : field Z) : string :=
  match code with
  | Undefined => "undefined"
  | Null => "null"
  | Value code => pretty code
  end.

(** A message inside a template literal. *)
Definition template (message : field string) : string :=
  match message with
  | Undefined => "undefined"
  | Null => "null"
  | Value message => message
  end.

(** [throw e] in the body of an [async] function. *)
Definition throws {A} (e : thrown) : Promise thrown A := Rejected (Value e).

(** The object a method of the class is called on: an instance, or an
    object that has no [query] method. *)
Inductive receiver :=
| Instance (rpc : Rpc)
| Foreign.

Section Query.
Context `{!RpcQuery.RemoteNode}.

Definition query (this : Rpc) (T : RpcMethod) (params : option (list Param))
    : Promise thrown (RpcMethodResult T) :=
  let rpcRequestDataFull :=
    {| jsonrpc := "2.0"; method := T; params := params |} in
  let configFull :=
    {| headers := headers CONFIG_DEFAULT; config_auth := Some (auth this) |} in
  let '(err, res) := to (post T (uri this) rpcRequestDataFull configFull) in
  match err with
  | Undefined =>
      (* [err !== null], and [err.response] is read on [undefined] *)
      throws TypeError
  | Value (ErrorString text) =>
      (* a string has no [response] *)
      throws (Error ("libs/rpc: " +:+ text))
  | Value (ErrorObject error_message response) =>
      match response with
      | Undefined => throws (Error ("libs/rpc: " +:+ template error_message))
      | Null => throws TypeError
      | Value response =>
          match error_data response with
          | Undefined =>
              throws (Error ("libs/rpc: " +:+ template error_message))
          | Null => throws TypeError
          | Value data =>
              match error data with
              | Undefined | Null =>
                  throws (Error ("libs/rpc: " +:+ template error_message))
              | Value error =>
                  let errorCode := String_of_code (code error) in
                  match RPC_ERRORS_TRANSLATION errorCode with
                  | Some errorKey => throws (EJError errorKey)
                  | None =>
                      throws (Error ("libs/rpc: " +:+ template (message error)))
                  end
              end
          end
      end
  | Null =>
      match res with
      | Undefined =>
          throws (Error "libs/rpc: We did't get the expected RPC response.")
      | Null => throws TypeError
      | Value res =>
          match data res with
          | Undefined =>
              throws (Error "libs/rpc: We did't get the expected RPC response.")
          | Null => throws TypeError
          | Value data => Fulfilled (result data)
          end
      end
  end.

(** [this.query(method, params)] in the body of a method: on an object
    without [query] the call is a [TypeError]. *)
Definition this_query (this : receiver) (T : RpcMethod)
    (params : option (list Param)) : Promise thrown (RpcMethodResult T) :=
  match this with
  | Instance rpc => query rpc T params
  | Foreign => throws TypeError
  end.

Definition getStakingInfo (this : receiver)
    : Promise thrown (RpcMethodResult getstakinginfo) :=
  this_query this getstakinginfo None.

Definition lock (this : receiver) : Promise thrown (RpcMethodResult walletlock) :=
  this_query this walletlock None.

Definition unlock (this : receiver) (passphrase : string) (timeout : Z)
    (stakingOnly : bool) : Promise thrown (RpcMethodResult walletpassphrase) :=
  this_query this walletpassphrase
    (Some [PString passphrase; PNumber timeout; PBoolean stakingOnly]).
End Query.
End RpcQuery.

(** ** Collaborators

    The libraries the class calls are not part of the embedded file;
    each is an interface whose functions return a value or the message
    of the error they throw. *)

Class Crypto := {
  cipherPrivateKey : string → string → string + string;
  decipherPrivateKey : string → string → string + string
}.

Class Electra := {
  validateMnemonic : string → bool;
  getRandomMnemonic : string + string;
  getMasterNodeAddressFromMnemonic : string → option string → string + Address.t;
  getDerivedChainFromMasterNodePrivateKey : string → Z → Z → string + Address.t;
  getAddressHashFromPrivateKey : string → string + string
}.

(** [webServices.getBalanceFor], awaited through [to]. *)
Class WebServices := {
  getBalanceFor : string → string + float
}.

Definition ONE_YEAR_IN_SECONDS : Z := 60 * 60 * 24 * 365.
Definition WALLET_INDEX : Z := 0.

(** ** The class *)

(** [new Wallet(settings)]: the field initialisers, then the constructor
    body. *)
Definition constructor (settings : Settings) : Wallet :=
  let fresh := mkWallet [] [] false None None None EMPTY [] in
  match rpcServerUri settings, rpcServerAuth settings with
  | Some uri, Some auth =>
      mkWallet (ADDRESSES fresh) (RANDOM_ADDRESSES fresh) (IS_LOCKED fresh)
               (MASTER_NODE_ADDRESS fresh) (MNEMONIC fresh)
               (Some {| auth := auth; uri := uri |}) READY (TRANSACTIONS fresh)
  | _, _ => fresh
  end.

(** *** Accessors *)

Definition state : M WalletState :=
  let* w := getThis in ret (STATE w).

Definition addresses : M (list loc) :=
  let* w := getThis in
  if decide (STATE w ≠ READY) then throw ErrAddressesNotReady
  else ret (ADDRESSES w).

Definition randomAddresses : M (list loc) :=
  let* w := getThis in
  if decide (STATE w ≠ READY) then throw ErrRandomAddressesNotReady
  else ret (RANDOM_ADDRESSES w).

Definition allAddresses : M (list loc) :=
  let* w := getThis in
  if decide (STATE w ≠ READY) then throw ErrAllAddressesNotReady
  else
    let* hd := addresses in
    let* random := randomAddresses in
    ret (hd ++ random).

(** The accessor [isHD]; the plain name is the field of [WalletAddress]. *)
Definition isHD_ : M bool :=
  let* w := getThis in
  if decide (STATE w ≠ READY) then throw ErrIsHDNotReady
  else ret (bool_decide (is_Some (MASTER_NODE_ADDRESS w))).

Definition isLocked : M bool :=
  let* w := getThis in
  if decide (STATE w ≠ READY) then throw ErrIsLockedNotReady
  else ret (IS_LOCKED w).

Definition mnemonic : M string :=
  let* w := getThis in
  if decide (STATE w ≠ READY) then throw ErrMnemonicNotReady
  else match MNEMONIC w with
       | None => throw ErrMnemonicUndefined
       | Some m => ret m
       end.

Definition transactions : M (list WalletTransaction) :=
  let* w := getThis in
  if decide (STATE w ≠ READY) then throw ErrTransactionsNotReady
  else ret (TRANSACTIONS w).

(** [this.ADDRESSES.push(l)] and [this.RANDOM_ADDRESSES.push(l)] *)
Definition push_ADDRESSES (l : loc) : M unit :=
  modifyThis (λ w, set_ADDRESSES (ADDRESSES w ++ [l]) w).
Definition push_RANDOM_ADDRESSES (l : loc) : M unit :=
  modifyThis (λ w, set_RANDOM_ADDRESSES (RANDOM_ADDRESSES w ++ [l]) w).

Section Methods.
Context `{!Crypto, !Electra, !WebServices, !RpcQuery.RemoteNode}.

(** *** generate *)

(** One turn of the body of [while (++chainIndex < chainsCount)]: the
    private key is read from the master node at each turn. *)
Definition generate_chain (chainIndex : Z) : M unit :=
  let* w := getThis in
  match MASTER_NODE_ADDRESS w with
  | None => throw TypeError
  | Some master =>
      let* m := deref master in
      let* address :=
        liftE (getDerivedChainFromMasterNodePrivateKey
                 (privateKey m) WALLET_INDEX chainIndex) in
      let* l := alloc (withLabelNull address) in
      push_ADDRESSES l
  end.

(** The loop, entered with the value [chainIndex] has before the
    increment.  [fuel] bounds the number of turns; running out of it
    is [Stuck]. *)
Fixpoint generate_chains (fuel : nat) (chainIndex chainsCount : Z) : M unit :=
  let chainIndex := chainIndex + 1 in
  if decide (chainIndex < chainsCount) then
    match fuel with
    | O => throw Stuck
    | S fuel =>
        generate_chain chainIndex >>
        generate_chains fuel chainIndex chainsCount
    end
  else ret tt.

(** STEP 1 of [generate]: the mnemonic is the one given, if it is
    valid, or else a random one, which is then kept in [MNEMONIC]. *)
Definition generate_mnemonic (mnemonic : option string) : M string :=
  match mnemonic with
  | Some mnemonic =>
      if validateMnemonic mnemonic then ret mnemonic
      else throw ErrGenerateInvalidMnemonic
  | None =>
      let* mnemonic := liftE getRandomMnemonic in
      modifyThis (set_MNEMONIC (Some mnemonic)) >>
      ret mnemonic
  end.

Definition generate (mnemonic : option string) (mnemonicExtension : option string)
    (chainsCount : Z) : M unit :=
  let* w := getThis in
  if decide (STATE w = READY) then throw ErrGenerateReady
  else
    (* STEP 1: MNEMONIC *)
    let* mnemonic := generate_mnemonic mnemonic in
    (* STEP 2: MASTER NODE *)
    let* address :=
      liftE (getMasterNodeAddressFromMnemonic mnemonic mnemonicExtension) in
    let* master := alloc (withLabelNull address) in
    modifyThis (set_MASTER_NODE_ADDRESS (Some master)) >>
    (* STEP 3: CHAINS *)
    generate_chains (Z.to_nat chainsCount) (-1) chainsCount >>
    modifyThis (set_STATE READY).

(** *** lock and unlock *)

(** [if (!address.isCiphered) address.privateKey = cipher(...)] *)
Definition cipher_at (passphrase : string) (l : loc) : M unit :=
  let* address := deref l in
  if negb (isCiphered address) then
    let* key := liftE (cipherPrivateKey (privateKey address) passphrase) in
    assign l (set_privateKey key)
  else ret tt.

(** [if (address.isCiphered) address.privateKey = decipher(...)] *)
Definition decipher_at (passphrase : string) (l : loc) : M unit :=
  let* address := deref l in
  if isCiphered address then
    let* key := liftE (decipherPrivateKey (privateKey address) passphrase) in
    assign l (set_privateKey key)
  else ret tt.

Definition lock (passphrase : string) : M unit :=
  let* w := getThis in
  if decide (STATE w ≠ READY) then throw ErrLockNotReady
  else
    match rpc w with
    | Some _ =>
        (* [tryCatch(this.rpc.lock.bind(this))]: the method is called
           on the wallet, not on [this.rpc] *)
        match (tryCatch (async (RpcQuery.lock RpcQuery.Foreign))).1 with
        | Some err => throw err
        | None => modifyThis (set_IS_LOCKED true)
        end
    | None =>
        match MASTER_NODE_ADDRESS w with
        | Some master => cipher_at passphrase master
        | None => ret tt
        end >>
        forEach (cipher_at passphrase) (ADDRESSES w) >>
        forEach (cipher_at passphrase) (RANDOM_ADDRESSES w) >>
        (* Locking the wallet should delete any stored mnemonic *)
        modifyThis (set_MNEMONIC None) >>
        modifyThis (set_IS_LOCKED true)
    end.

Definition unlock (passphrase : string) (forStakingOnly : bool) : M unit :=
  let* w := getThis in
  if decide (STATE w ≠ READY) then throw ErrUnlockNotReady
  else
    match rpc w with
    | Some remote =>
        match (tryCatch
                 (async (RpcQuery.unlock (RpcQuery.Instance remote) passphrase
                           ONE_YEAR_IN_SECONDS forStakingOnly))).1 with
        | Some err => throw err
        | None => modifyThis (set_IS_LOCKED false)
        end
    | None =>
        match MASTER_NODE_ADDRESS w with
        | Some master => decipher_at passphrase master
        | None => ret tt
        end >>
        forEach (decipher_at passphrase) (ADDRESSES w) >>
        forEach (decipher_at passphrase) (RANDOM_ADDRESSES w) >>
        modifyThis (set_IS_LOCKED false)
    end.

(** *** export *)

Definition export (unsafe : bool) : M WalletData.t :=
  let* w := getThis in
  if decide (STATE w ≠ READY) then throw ErrExportNotReady
  else if negb (IS_LOCKED w) && negb unsafe then throw ErrExportUnlocked
  else if IS_LOCKED w && unsafe then throw ErrExportLocked
  else
    ret {| WalletData.chainsCount := length (ADDRESSES w);
           WalletData.masterNodeAddress := MASTER_NODE_ADDRESS w;
           WalletData.randomAddresses := RANDOM_ADDRESSES w |}.

(** *** importRandomAddress

    The caller's object lives in the heap at [address]; the method
    mutates it in place and stores the reference itself. *)

(** The statements before [if (isHDMasterNode)]: the entry guard, the
    deciphering of the private key and the computation of the hash. *)
Definition import_prepare (address : loc) (passphrase : option string)
    (isHDMasterNode : bool) : M unit :=
  let* w := getThis in
  if isHDMasterNode && bool_decide (is_Some (MASTER_NODE_ADDRESS w))
  then throw ErrImportMasterNodeExists
  else
    let* a := deref address in
    (if isCiphered a then
       match passphrase with
       | None => throw ErrImportNoPassphrase
       | Some passphrase =>
           let* key := liftE (decipherPrivateKey (privateKey a) passphrase) in
           assign address (set_privateKey key) >>
           assign address (set_isCiphered false)
       end
     else ret tt) >>
    let* a := deref address in
    let* h := liftE (getAddressHashFromPrivateKey (privateKey a)) in
    assign address (set_hash h).

(** [this.state === WalletState.READY && this.isHD] *)
Definition import_inner_guard : M bool :=
  let* s := state in
  if decide (s = READY) then isHD_ else ret false.

Definition importRandomAddress (address : loc) (passphrase : option string)
    (isHDMasterNode : bool) : M unit :=
  import_prepare address passphrase isHDMasterNode >>
  if isHDMasterNode then
    let* already := import_inner_guard in
    if already then throw ErrImportAnotherMasterNode
    else
      assign address (set_isHD true) >>
      modifyThis (set_MASTER_NODE_ADDRESS (Some address))
  else push_RANDOM_ADDRESSES address.

(** *** reset *)

Definition reset : M unit :=
  let* w := getThis in
  if decide (STATE w = EMPTY) then throw ErrResetEmpty
  else
    modifyThis (set_MASTER_NODE_ADDRESS None) >>
    modifyThis (set_MNEMONIC None) >>
    modifyThis (set_ADDRESSES []) >>
    modifyThis (set_RANDOM_ADDRESSES []) >>
    modifyThis (set_STATE EMPTY) >>
    modifyThis (set_TRANSACTIONS []).

(** *** getBalance

    The method is [async]: its rejections are modelled as throws, and
    the world is the one the awaited requests leave. *)

(** [await to(webServices.getBalanceFor(h))], followed by the
    [throw err] of a failed request.  The request is logged whether it
    fails or not. *)
Definition request (h : string) : M float :=
  λ σ, let σ' := mkWorld (heap σ) (this σ) (requests σ ++ [h]) in
       match getBalanceFor h with
       | inl err => (inl (Thrown err), σ')
       | inr balance => (inr balance, σ')
       end.

(** [addresses.filter(address => address.hash === addressHash)] *)
Fixpoint filter_by_hash (addressHash : string) (ls : list loc) : M (list loc) :=
  match ls with
  | [] => ret []
  | l :: ls =>
      let* address := deref l in
      let* found := filter_by_hash addressHash ls in
      ret (if decide (hash address = addressHash) then l :: found else found)
  end.

(** [while (--index >= 0)], entered with the value [index] has before
    the decrement. *)
Fixpoint getBalance_loop (index : nat) (balanceTotal : float) : M float :=
  match index with
  | O => ret balanceTotal
  | S index =>
      let* all := allAddresses in
      match all !! index with
      | None => throw TypeError
      | Some l =>
          let* address := deref l in
          let* balance := request (hash address) in
          getBalance_loop index (balanceTotal + balance)%float
      end
  end.

Definition getBalance (addressHash : option string) : M float :=
  let* w := getThis in
  if decide (STATE w = EMPTY) then throw ErrGetBalanceEmpty
  else
    let* addresses := allAddresses in
    match addressHash with
    | Some addressHash =>
        let* found := filter_by_hash addressHash addresses in
        if decide (length found = 0%nat) then throw ErrGetBalanceForeign
        else request addressHash
    | None => getBalance_loop (length addresses) 0%float
    end.
End Methods.

(** The references a wallet holds. *)
Definition held (w : Wallet) : list loc :=
  option_list (MASTER_NODE_ADDRESS w) ++ ADDRESSES w ++ RANDOM_ADDRESSES w.

(** Every reference of [ls] points into the heap. *)
Definition valid (h : list WalletAddress) (ls : list loc) : Prop :=
  Forall (λ l, is_Some (h !! l)) ls.

(** The hashes of the objects [ls] refers to. *)
Definition hashes (h : list WalletAddress) (ls : list loc) : list string :=
  omap (λ l, hash <$> h !! l) ls.

(** The world after the objects [chains] have been allocated one after
    the other and their references pushed on [ADDRESSES]. *)
Definition pushed (σ : World) (chains : list Address.t) : World :=
  mkWorld (heap σ ++ (withLabelNull <$> chains))
    (set_ADDRESSES
       (ADDRESSES (this σ) ++ seq (length (heap σ)) (length chains)) (this σ))
    (requests σ).

(** The world a call of [generate] that returns leaves in place of [σ],
    when [words] is the mnemonic it worked with and [master] and
    [chains] are the addresses it derived: the master node and then the
    chain addresses are new objects with a null label, the master node
    is stored, the chain addresses are appended to [ADDRESSES] in the
    order of their indices, a random mnemonic is stored, and the state
    is READY. *)
Definition after_generate (σ : World) (mnemonic : option string)
    (words : string) (master : Address.t) (chains : list Address.t) : World :=
  mkWorld
    (heap σ ++ withLabelNull master :: (withLabelNull <$> chains))
    (set_STATE READY
       (set_ADDRESSES
          (ADDRESSES (this σ) ++ seq (S (length (heap σ))) (length chains))
          (set_MASTER_NODE_ADDRESS (Some (length (heap σ)))
             match mnemonic with
             | Some _ => this σ
             | None => set_MNEMONIC (Some words) (this σ)
             end)))
    (requests σ).

(** No object that [ls] refers to is flagged as ciphered. *)
Definition unciphered (h : list WalletAddress) (ls : list loc) : Prop :=
  Forall (λ l, isCiphered <$> h !! l = Some false) ls.

(** A computation preserves a relation between worlds when the world
    it leaves, whether it returns or throws, is related to the world it
    starts in. *)
Definition preserves (R : World → World → Prop) {A} (c : M A) : Prop :=
  ∀ σ, R σ (c σ).2.

(** The wallet fields are left as they are. *)
Definition same_this (σ σ' : World) : Prop := this σ' = this σ.
(** The lifecycle state is left as it is. *)
Definition same_STATE (σ σ' : World) : Prop :=
  STATE (this σ') = STATE (this σ).
(** Every object keeps its [isCiphered] flag, and no object is added. *)
Definition same_flags (σ σ' : World) : Prop :=
  isCiphered <$> heap σ' = isCiphered <$> heap σ.

(** ** Concrete collaborators

    Simple stand-ins for the libraries, used to run the class on
    concrete wallets.  The cipher prefixes the key with the passphrase,
    and deciphering with the same passphrase gives the key back. *)
Module Sample.
Definition crypto : Crypto := {|
  cipherPrivateKey key passphrase := inr (passphrase +:+ ":" +:+ key);
  decipherPrivateKey key passphrase :=
    let tag := passphrase +:+ ":" in
    if String.prefix tag key
    then inr (String.substring (String.length tag)
                (String.length key - String.length tag) key)
    else inl "wrong passphrase"
|}.

Definition electra : Electra := {|
  validateMnemonic m := negb (String.eqb m "");
  getRandomMnemonic := inr "lava rigid cloth";
  getMasterNodeAddressFromMnemonic m extension :=
    inr (Address.mk ("M(" +:+ m +:+ ")") false true
           ("xprv(" +:+ m +:+ default "" extension +:+ ")"));
  getDerivedChainFromMasterNodePrivateKey key walletIndex chainIndex :=
    let path := key +:+ "/" +:+ pretty walletIndex +:+ "/" +:+ pretty chainIndex in
    inr (Address.mk ("H(" +:+ path +:+ ")") false false path);
  getAddressHashFromPrivateKey key := inr ("H(" +:+ key +:+ ")")
|}.

(** Three known hashes with balances 0.1, 0.2 and 0.3; a request for
    any other hash fails. *)
Definition webServices : WebServices := {|
  getBalanceFor h :=
    if String.eqb h "a" then inr 0.1%float
    else if String.eqb h "b" then inr 0.2%float
    else if String.eqb h "c" then inr 0.3%float
    else inl "unknown address"
|}.

(** A node that answers every command with a [null] result. *)
Definition remoteNode : RpcQuery.RemoteNode := {|
  RpcQuery.post T _ _ _ :=
    Fulfilled
      (Value {| RpcQuery.data := Value {| RpcQuery.result := Null |} |});
  RpcQuery.RPC_ERRORS_TRANSLATION _ := None
|}.

(** A plaintext address object with the given hash and key. *)
Definition plain (h key : string) : WalletAddress :=
  mkWalletAddress h false false None key.

(** A READY wallet without remote node that holds the given random
    addresses and nothing else. *)
Definition ready (random : list loc) (locked : bool) : Wallet :=
  mkWallet [] random locked None None None READY [].

Definition no_settings : Settings :=
  {| rpcServerUri := None; rpcServerAuth := None |}.
Definition remote_settings : Settings :=
  {| rpcServerUri := Some "http://127.0.0.1:5788";
     rpcServerAuth := Some {| username := "user"; password := "pass" |} |}.

(** [new Wallet()], with no other object around. *)
Definition fresh : World := mkWorld [] (constructor no_settings) [].

(** The world [new Wallet().generate(undefined, undefined, 1)] leaves:
    the master node at reference 0 and one chain address at
    reference 1. *)
Definition generated : World :=
  mkWorld
    [ mkWalletAddress "M(lava rigid cloth)" false true None
        "xprv(lava rigid cloth)";
      mkWalletAddress "H(xprv(lava rigid cloth)/0/0)" false false None
        "xprv(lava rigid cloth)/0/0" ]
    (mkWallet [1%nat] [] false (Some 0%nat) (Some "lava rigid cloth") None
       READY [])
    [].

(** [generated] after [lock("pw")]. *)
Definition locked : World :=
  mkWorld
    [ mkWalletAddress "M(lava rigid cloth)" false true None
        "pw:xprv(lava rigid cloth)";
      mkWalletAddress "H(xprv(lava rigid cloth)/0/0)" false false None
        "pw:xprv(lava rigid cloth)/0/0" ]
    (mkWallet [1%nat] [] true (Some 0%nat) None None READY [])
    [].

(** [locked] after a second [lock("pw")]. *)
Definition locked_twice : World :=
  mkWorld
    [ mkWalletAddress "M(lava rigid cloth)" false true None
        "pw:pw:xprv(lava rigid cloth)";
      mkWalletAddress "H(xprv(lava rigid cloth)/0/0)" false false None
        "pw:pw:xprv(lava rigid cloth)/0/0" ]
    (mkWallet [1%nat] [] true (Some 0%nat) None None READY [])
    [].

(** Three random addresses with the hashes a, b and c, held in that
    order and in the opposite order, and with an address the web
    service does not know in the middle. *)
Definition three : list WalletAddress :=
  [plain "a" "k1"; plain "b" "k2"; plain "c" "k3"].
Definition abc : World := mkWorld three (ready [0; 1; 2]%nat false) [].
Definition cba : World := mkWorld three (ready [2; 1; 0]%nat false) [].
Definition azc : World :=
  mkWorld [plain "a" "k1"; plain "z" "k2"; plain "c" "k3"]
    (ready [0; 1; 2]%nat false) [].

(** A new wallet next to an address object that a caller is about to
    import. *)
Definition importing : World :=
  mkWorld [plain "" "secret"] (constructor no_settings) [].
End Sample.

(** ** Further definitions used to state what the methods keep *)

(** Only private keys may differ between the two worlds: no object is
    added or removed, every object keeps its hash, its two flags and its
    label, and no request is sent. *)
Definition keys_only (σ σ' : World) : Prop :=
  set_privateKey "" <$> heap σ' = set_privateKey "" <$> heap σ
  ∧ requests σ' = requests σ.

(** The common shape of the callbacks of [lock] and [unlock]: when
    [test] holds of the object, its private key is replaced by what [op]
    returns for it. *)
Definition touch_at (test : WalletAddress → bool) (op : string → string + string)
    (l : loc) : M unit :=
  let* address := deref l in
  if test address then
    let* key := liftE (op (privateKey address)) in
    assign l (set_privateKey key)
  else ret tt.

(** A cipher that refuses an empty key, to run [lock] up to a failure,
    and a wallet whose second address has an empty key. *)
Module Strict.
Definition crypto : Crypto := {|
  cipherPrivateKey key passphrase :=
    if String.eqb key "" then inl "empty key"
    else inr (passphrase +:+ ":" +:+ key);
  decipherPrivateKey key passphrase :=
    let tag := passphrase +:+ ":" in
    if String.prefix tag key
    then inr (String.substring (String.length tag)
                (String.length key - String.length tag) key)
    else inl "wrong passphrase"
|}.

Definition gap : World :=
  mkWorld [Sample.plain "a" "k1"; Sample.plain "b" ""; Sample.plain "c" "k3"]
    (Sample.ready [0; 1; 2]%nat false) [].

(** A wallet with one address flagged as ciphered and one that is not. *)
Definition mixed : World :=
  mkWorld [mkWalletAddress "a" true false None "pw:k1"; Sample.plain "b" "k2"]
    (Sample.ready [0; 1]%nat false) [].
End Strict.

(** A derivation library that fails on three inputs: the master node
    for an empty extension, the chain with index 2 and above, and the
    hash of an empty key. *)
Module Failing.
Definition electra : Electra := {|
  validateMnemonic m := negb (String.eqb m "");
  getRandomMnemonic := inr "lava rigid cloth";
  getMasterNodeAddressFromMnemonic m extension :=
    if decide (extension = Some "") then inl "empty extension"
    else inr (Address.mk ("M(" +:+ m +:+ ")") false true
                ("xprv(" +:+ m +:+ default "" extension +:+ ")"));
  getDerivedChainFromMasterNodePrivateKey key walletIndex chainIndex :=
    if decide (2 ≤ chainIndex)%Z then inl "no such chain"
    else
      let path := key +:+ "/" +:+ pretty walletIndex +:+ "/" +:+ pretty chainIndex in
      inr (Address.mk ("H(" +:+ path +:+ ")") false false path);
  getAddressHashFromPrivateKey key :=
    if String.eqb key "" then inl "empty key"
    else inr ("H(" +:+ key +:+ ")")
|}.
End Failing.

(** The plaintext key [importRandomAddress] works with: the key of the
    object, deciphered with the passphrase when the object is flagged
    as ciphered. *)
Definition import_key `{!Crypto} (a : WalletAddress) (passphrase : option string)
    : error + string :=
  if isCiphered a then
    match passphrase with
    | None => inl ErrImportNoPassphrase
    | Some passphrase =>
        match decipherPrivateKey (privateKey a) passphrase with
        | inl err => inl (Thrown err)
        | inr key => inr key
        end
    end
  else inr (privateKey a).

(** The object an import that returns leaves at the caller's reference:
    the key is the plaintext key, the hash is the one computed from it,
    [isCiphered] is false, [isHD] is set on the master node path and
    kept otherwise, the label is kept. *)
Definition imported (a : WalletAddress) (key h : string) (isHDMasterNode : bool)
    : WalletAddress :=
  mkWalletAddress h false (if isHDMasterNode then true else isHD a) (label a) key.

(** Worlds to run imports in: an object flagged as ciphered next to a
    new wallet, one whose key deciphers to the empty key, and a
    plaintext object next to the locked wallet and next to the
    generated wallet. *)
Module Imports.
Definition ciphered : World :=
  mkWorld [mkWalletAddress "?" true false (Some "savings") "pw:secret"]
    (constructor Sample.no_settings) [].
Definition empty_key : World :=
  mkWorld [mkWalletAddress "?" true false None "pw:"]
    (constructor Sample.no_settings) [].
Definition into_locked : World :=
  mkWorld (heap Sample.locked ++ [Sample.plain "?" "secret"])
    (this Sample.locked) [].
Definition into_generated : World :=
  mkWorld (heap Sample.generated ++ [Sample.plain "?" "secret"])
    (this Sample.generated) [].
End Imports.


(** A cipher in the manner of BIP38: a ciphered key starts with "6P",
    the cipher refuses a key that starts so, and the decipher refuses
    any other key and any key whose plaintext would start so. *)
Module Bip38.
Definition crypto : Crypto := {|
  cipherPrivateKey key passphrase :=
    if String.prefix "6P" key then inl "Invalid network version"
    else inr ("6P" +:+ passphrase +:+ ":" +:+ key);
  decipherPrivateKey key passphrase :=
    let tag := "6P" +:+ passphrase +:+ ":" in
    let plain :=
      String.substring (String.length tag)
        (String.length key - String.length tag) key in
    if String.prefix tag key && negb (String.prefix "6P" plain) then inr plain
    else inl "Invalid checksum"
|}.

(** [Sample.generated] after [lock("pw")] with this cipher. *)
Definition locked : World :=
  mkWorld
    [ mkWalletAddress "M(lava rigid cloth)" false true None
        "6Ppw:xprv(lava rigid cloth)";
      mkWalletAddress "H(xprv(lava rigid cloth)/0/0)" false false None
        "6Ppw:xprv(lava rigid cloth)/0/0" ]
    (mkWallet [1%nat] [] true (Some 0%nat) None None READY [])
    [].
End Bip38.

(** ** getStakingInfo *)

(** Modelled from the spec: the [WalletStakingInfo] the method returns
    ([src/wallet/types.ts]). *)
Module WalletStakingInfo.
Record t := mk {
  networkWeight : float;
  nextRewardIn : float;
  weight : float
}.
End WalletStakingInfo.

(** The method is [async] and reads one field of the wallet: it is a
    function from the wallet to the promise it returns.  Without remote
    node [(this.rpc as Rpc).getStakingInfo] is read on [undefined]. *)
Definition getStakingInfo `{!RpcQuery.RemoteNode} (w : Wallet)
    : Promise RpcQuery.thrown WalletStakingInfo.t :=
  match rpc w with
  | None => RpcQuery.throws RpcQuery.TypeError
  | Some remote =>
      let '(err, res) :=
        to (RpcQuery.getStakingInfo (RpcQuery.Instance remote)) in
      match err, res with
      | Null, Value res =>
          Fulfilled
            (Value
               {| WalletStakingInfo.networkWeight :=
                    StakingInfo.netstakeweight res;
                  WalletStakingInfo.nextRewardIn := StakingInfo.expectedtime res;
                  WalletStakingInfo.weight := StakingInfo.weight res |})
      | Null, Null =>
          (* [res.netstakeweight] is read on [null] *)
          RpcQuery.throws RpcQuery.TypeError
      | _, _ =>
          (* [err !== null || res === undefined]: [throw err] *)
          Rejected err
      end
  end.

(** A wallet bound to a remote node that holds one plaintext address,
    and a wallet that is still EMPTY after an import. *)
Module Remote.
Definition bound : World :=
  mkWorld [Sample.plain "a" "k1"]
    (set_RANDOM_ADDRESSES [0%nat] (constructor Sample.remote_settings)) [].
Definition imported_only : World :=
  mkWorld [Sample.plain "H(secret)" "secret"]
    (set_RANDOM_ADDRESSES [0%nat] (constructor Sample.no_settings)) [].
(** [bound] next to a plaintext object that a caller is about to
    import. *)
Definition importing : World :=
  mkWorld (heap bound ++ [Sample.plain "?" "secret"]) (this bound) [].
End Remote.

(** A node to run the [Rpc] class against.  It refuses every
    [walletpassphrase] with the error code -14, which the table knows,
    and [getinfo] with a code that the table does not know; it drops
    the connection on [stop]; it answers [getstakinginfo] with three
    figures when asked at its own address, with [null] data at the
    address "data:null", with data that hold no result at "no-result",
    and with a [null] result anywhere else; it answers any other
    command without data. *)
Module Node.
Import RpcQuery.
Definition table (errorCode : string) : option string :=
  if String.eqb errorCode "-14" then Some "E14" else None.

Definition rpc : Rpc :=
  {| auth := {| username := "user"; password := "pass" |};
     uri := "http://127.0.0.1:5788" |}.

Definition refused (c : Z) (text : string) : field AxiosError :=
  Value (ErrorObject (Value "Request failed with status code 500")
           (Value {| error_data :=
                       Value {| error :=
                                  Value {| code := Value c;
                                           message := Value text |} |} |})).

(** A response whose data hold the result [r]. *)
Definition answer {T : RpcMethod} (r : field (RpcMethodResult T))
    : Promise AxiosError (AxiosResponse T) :=
  Fulfilled (Value {| data := Value {| result := r |} |}).

Definition post (T : RpcMethod) (address : string) (request : JsonRpcRequest)
    (config : AxiosRequestConfig) : Promise AxiosError (AxiosResponse T) :=
  match T return Promise AxiosError (AxiosResponse T) with
  | walletpassphrase => Rejected (refused (-14) "bad passphrase")
  | getinfo => Rejected (refused (-1) "not ready")
  | stop => Rejected (Value (ErrorString "socket hang up"))
  | getstakinginfo =>
      if String.eqb address (uri rpc) then
        answer (T := getstakinginfo) (Value (StakingInfo.mk 1000 60 10))
      else if String.eqb address "data:null" then
        Fulfilled (Value {| data := Null |})
      else if String.eqb address "no-result" then answer Undefined
      else answer Null
  | _ => Fulfilled (Value {| data := Undefined |})
  end.

Definition remote : RemoteNode :=
  {| RpcQuery.post := post; RPC_ERRORS_TRANSLATION := table |}.

(** The same wallet bound to the node at three addresses. *)
Definition bound_to (address : string) : Wallet :=
  constructor {| rpcServerUri := Some address;
                 rpcServerAuth := Some (auth rpc) |}.
End Node.

(** ** Sequences of calls *)

(** What a user of the wallet can do to the world: call a method of
    the class, make a new address object, or write to an address
    object, which the wallet may hold too.  The accessors and
    [getStakingInfo] leave the world as it is and are left out. *)
Inductive Call :=
| CallGenerate (mnemonic mnemonicExtension : option string) (chainsCount : Z)
| CallLock (passphrase : string)
| CallUnlock (passphrase : string) (forStakingOnly : bool)
| CallExport (unsafe : bool)
| CallImportRandomAddress (address : loc) (passphrase : option string)
    (isHDMasterNode : bool)
| CallReset
| CallGetBalance (addressHash : option string)
| CallerNew (a : WalletAddress)
| CallerWrite (l : loc) (a : WalletAddress).

Section Calls.
Context `{!Crypto, !Electra, !WebServices, !RpcQuery.RemoteNode}.

(** The world a call leaves, whether it returns or throws. *)
Definition after (c : Call) (σ : World) : World :=
  match c with
  | CallGenerate mnemonic mnemonicExtension chainsCount =>
      (generate mnemonic mnemonicExtension chainsCount σ).2
  | CallLock passphrase => (lock passphrase σ).2
  | CallUnlock passphrase forStakingOnly =>
      (unlock passphrase forStakingOnly σ).2
  | CallExport unsafe => (export unsafe σ).2
  | CallImportRandomAddress address passphrase isHDMasterNode =>
      (importRandomAddress address passphrase isHDMasterNode σ).2
  | CallReset => (reset σ).2
  | CallGetBalance addressHash => (getBalance addressHash σ).2
  | CallerNew a => (alloc a σ).2
  | CallerWrite l a => mkWorld (<[l := a]> (heap σ)) (this σ) (requests σ)
  end.

(** The world a sequence of calls leaves, from first to last. *)
Definition after_all (calls : list Call) (σ : World) : World :=
  foldl (λ σ c, after c σ) σ calls.
End Calls.

(** A master node that is set is still set, though it may be another
    one. *)
Definition keeps_master (σ σ' : World) : Prop :=
  is_Some (MASTER_NODE_ADDRESS (this σ))
  → is_Some (MASTER_NODE_ADDRESS (this σ')).

(** ** Reasoning in the monad *)

Lemma bind_inr_inv {A B} (c : M A) (k : A → M B) σ b σ2 :
  bind c k σ = (inr b, σ2) →
  ∃ a σ1, c σ = (inr a, σ1) ∧ k a σ1 = (inr b, σ2).
Proof.
  unfold bind. destruct (c σ) as [[e|a] σ1]; [discriminate|].
  intros E. now exists a, σ1.
Qed.

Lemma World_eta σ : mkWorld (heap σ) (this σ) (requests σ) = σ.
Proof. now destruct σ. Qed.

(** Unfolds the primitive computations that only read or write the
    wallet fields. *)
Ltac munfold :=
  unfold allAddresses, state, addresses, randomAddresses, isHD_, isLocked,
    push_ADDRESSES, push_RANDOM_ADDRESSES, bind, ret, throw, liftE, getThis,
    modifyThis in *.


(** ** Computations that preserve a relation between worlds *)

Section Preserve.
Context (R : World → World → Prop) `{!Reflexive R, !Transitive R}.

Lemma preserves_ret {A} (a : A) : preserves R (ret a).
Proof. intros σ. simpl. reflexivity. Qed.

Lemma preserves_throw {A} e : preserves R (throw (A := A) e).
Proof. intros σ. simpl. reflexivity. Qed.

Lemma preserves_liftE {A} (r : string + A) : preserves R (liftE r).
Proof. destruct r; [apply preserves_throw | apply preserves_ret]. Qed.

Lemma preserves_getThis : preserves R getThis.
Proof. intros σ. simpl. reflexivity. Qed.

Lemma preserves_deref l : preserves R (deref l).
Proof. intros σ. unfold deref. destruct (heap σ !! l); simpl; reflexivity. Qed.

Lemma preserves_bind {A B} (c : M A) (k : A → M B) :
  preserves R c → (∀ a, preserves R (k a)) → preserves R (bind c k).
Proof.
  intros Hc Hk σ. unfold bind. specialize (Hc σ).
  destruct (c σ) as [[e|a] σ1]; simpl in *; [assumption|].
  etransitivity; [eassumption | apply Hk].
Qed.

Lemma preserves_forEach f ls :
  (∀ l, preserves R (f l)) → preserves R (forEach f ls).
Proof.
  intros Hf. induction ls as [|l ls IH]; simpl.
  - apply preserves_ret.
  - apply preserves_bind; [apply Hf | intros _; apply IH].
Qed.

Lemma preserves_assign l f :
  (∀ σ a, heap σ !! l = Some a →
     R σ (mkWorld (<[l := f a]> (heap σ)) (this σ) (requests σ))) →
  preserves R (assign l f).
Proof.
  intros H σ. unfold assign. destruct (heap σ !! l) eqn:E; simpl.
  - now apply H.
  - reflexivity.
Qed.

Lemma preserves_modifyThis f :
  (∀ σ, R σ (mkWorld (heap σ) (f (this σ)) (requests σ))) →
  preserves R (modifyThis f).
Proof. intros H σ. apply H. Qed.
End Preserve.

(** Breaks a computation into its primitive steps. *)
Ltac preserve_steps :=
  repeat match goal with
    | |- preserves ?R (bind _ _) => apply (preserves_bind R); [|intros ?]
    | |- preserves ?R (ret _) => apply (preserves_ret R)
    | |- preserves ?R (throw _) => apply (preserves_throw R)
    | |- preserves ?R (liftE _) => apply (preserves_liftE R)
    | |- preserves ?R getThis => apply (preserves_getThis R)
    | |- preserves ?R (deref _) => apply (preserves_deref R)
    | |- preserves ?R (forEach _ _) => apply (preserves_forEach R); intros ?
    | |- preserves _ (match ?x with _ => _ end) => destruct x eqn:?
    end.

#[local] Instance same_this_refl : Reflexive same_this.
Proof. now intros σ. Qed.
#[local] Instance same_this_trans : Transitive same_this.
Proof. unfold same_this. intros σ1 σ2 σ3 H1 H2. congruence. Qed.
#[local] Instance same_STATE_refl : Reflexive same_STATE.
Proof. now intros σ. Qed.
#[local] Instance same_STATE_trans : Transitive same_STATE.
Proof. unfold same_STATE. intros σ1 σ2 σ3 H1 H2. congruence. Qed.
#[local] Instance same_flags_refl : Reflexive same_flags.
Proof. now intros σ. Qed.
#[local] Instance same_flags_trans : Transitive same_flags.
Proof. unfold same_flags. intros σ1 σ2 σ3 H1 H2. congruence. Qed.

Lemma same_this_assign l f : preserves same_this (assign l f).
Proof. apply (preserves_assign _). now intros. Qed.

Lemma same_STATE_assign l f : preserves same_STATE (assign l f).
Proof. apply (preserves_assign _). now intros. Qed.

Lemma same_flags_assign l f :
  (∀ a, isCiphered (f a) = isCiphered a) →
  preserves same_flags (assign l f).
Proof.
  intros Hf. apply (preserves_assign _).
  intros σ a E. unfold same_flags. simpl.
  rewrite list_fmap_insert, Hf. apply list_insert_id.
  now rewrite list_lookup_fmap, E.
Qed.

Lemma same_flags_modifyThis f : preserves same_flags (modifyThis f).
Proof. now apply (preserves_modifyThis _). Qed.

Section Facts.
Context `{!Crypto, !Electra, !WebServices, !RpcQuery.RemoteNode}.

(** *** The constructor *)

(** C4 (amended): a new wallet is EMPTY and bound to no remote node,
    unless the settings give both the URI and the credentials of an
    RPC server: then it is bound to that node and READY from the
    start. *)
Theorem constructor_state settings :
  match rpcServerUri settings, rpcServerAuth settings with
  | Some uri, Some auth =>
      STATE (constructor settings) = READY
      ∧ rpc (constructor settings) = Some {| auth := auth; uri := uri |}
  | _, _ =>
      STATE (constructor settings) = EMPTY
      ∧ rpc (constructor settings) = None
  end.
Proof.
  unfold constructor.
  destruct (rpcServerUri settings), (rpcServerAuth settings); now split.
Qed.

(** *** reset *)

(** C5: [reset] fails on an EMPTY wallet and leaves the world as it
    is; on any other wallet it succeeds and empties the master node,
    the mnemonic, both address lists and the transactions, and sets
    the state to EMPTY.  [IS_LOCKED] (and the remote node) are left as
    they were: the locked flag is not reset. *)
Theorem reset_spec σ :
  reset σ =
    if decide (STATE (this σ) = EMPTY) then (inl ErrResetEmpty, σ)
    else (inr tt,
          mkWorld (heap σ)
            (mkWallet [] [] (IS_LOCKED (this σ)) None None
               (rpc (this σ)) EMPTY [])
            (requests σ)).
Proof.
  unfold reset. munfold. simpl.
  destruct (decide (STATE (this σ) = EMPTY)); reflexivity.
Qed.

(** *** export *)

(** C6: on a READY wallet [export] succeeds exactly in the two
    combinations locked and not unsafe, unlocked and unsafe; it then
    returns the number of HD addresses, the master node (or null) and
    the list of random addresses, and leaves the world as it is.  In
    the other two combinations it fails with an invariant violation. *)
Theorem export_matrix σ unsafe :
  STATE (this σ) = READY →
  let w := this σ in
  let allowed :=
    (IS_LOCKED w = true ∧ unsafe = false)
    ∨ (IS_LOCKED w = false ∧ unsafe = true) in
  (allowed →
     export unsafe σ =
       (inr {| WalletData.chainsCount := length (ADDRESSES w);
               WalletData.masterNodeAddress := MASTER_NODE_ADDRESS w;
               WalletData.randomAddresses := RANDOM_ADDRESSES w |}, σ))
  ∧ (¬ allowed →
     ∃ e, export unsafe σ = (inl e, σ)
          ∧ kind e = Some InvariantViolation).
Proof.
  intros Hready w allowed. subst allowed w.
  unfold export. munfold. rewrite Hready. simpl.
  destruct (IS_LOCKED (this σ)), unsafe; simpl; split; intros Hc;
    try reflexivity; try (exfalso; tauto);
    try (destruct Hc as [[? ?]|[? ?]]; discriminate);
    eexists; split; reflexivity.
Qed.

(** *** importRandomAddress *)

Lemma import_prepare_same_this address passphrase isHDMasterNode :
  preserves same_this (import_prepare address passphrase isHDMasterNode).
Proof.
  unfold import_prepare. preserve_steps; apply same_this_assign.
Qed.

Lemma import_prepare_same_STATE address passphrase isHDMasterNode :
  preserves same_STATE (import_prepare address passphrase isHDMasterNode).
Proof.
  intros σ. unfold same_STATE.
  now rewrite (import_prepare_same_this address passphrase isHDMasterNode σ).
Qed.

(** No path through [importRandomAddress] assigns [STATE]. *)
Lemma importRandomAddress_same_STATE address passphrase isHDMasterNode :
  preserves same_STATE (importRandomAddress address passphrase isHDMasterNode).
Proof.
  unfold importRandomAddress, import_inner_guard, state, isHD_,
    push_RANDOM_ADDRESSES.
  apply (preserves_bind same_STATE); [|intros _].
  - apply import_prepare_same_STATE.
  - preserve_steps;
      first [ apply same_STATE_assign
            | now apply (preserves_modifyThis same_STATE) ].
Qed.

(** When the entry guard lets a master node through, the wallet has
    no master node, before and after the preparation of the address. *)
Lemma import_prepare_master address passphrase σ σ1 :
  import_prepare address passphrase true σ = (inr tt, σ1) →
  MASTER_NODE_ADDRESS (this σ) = None ∧ this σ1 = this σ.
Proof.
  intros E. split.
  - unfold import_prepare in E. munfold. simpl in E.
    destruct (MASTER_NODE_ADDRESS (this σ)); [discriminate | reflexivity].
  - pose proof (import_prepare_same_this address passphrase true σ) as Hsame.
    now rewrite E in Hsame.
Qed.

(** C10: in [importRandomAddress] the inner guard of the master node
    path never fires.  Whenever the statements before it complete on a
    call with [isHDMasterNode = true], the wallet has no master node,
    so the guard evaluates to false; a call with [isHDMasterNode =
    true] on a wallet that has a master node is rejected by the entry
    guard, with the world untouched; and no call at all ends with the
    error of the inner guard. *)
Theorem import_inner_guard_unreachable address passphrase σ :
  (∀ σ1, import_prepare address passphrase true σ = (inr tt, σ1) →
     MASTER_NODE_ADDRESS (this σ1) = None
     ∧ import_inner_guard σ1 = (inr false, σ1))
  ∧ (is_Some (MASTER_NODE_ADDRESS (this σ)) →
     importRandomAddress address passphrase true σ
     = (inl ErrImportMasterNodeExists, σ))
  ∧ (∀ isHDMasterNode,
       (importRandomAddress address passphrase isHDMasterNode σ).1
       ≠ inl ErrImportAnotherMasterNode).
Proof.
  assert (Hguard : ∀ σ1,
    import_prepare address passphrase true σ = (inr tt, σ1) →
    MASTER_NODE_ADDRESS (this σ1) = None
    ∧ import_inner_guard σ1 = (inr false, σ1)).
  { intros σ1 E. apply import_prepare_master in E as [Hnone Hsame].
    rewrite Hsame. split; [assumption|].
    unfold import_inner_guard. munfold. simpl. rewrite Hsame.
    destruct (decide (STATE (this σ) = READY)) as [Hready|]; [|reflexivity].
    rewrite Hsame. destruct (decide (STATE (this σ) ≠ READY)); [done|].
    now rewrite Hnone. }
  split; [exact Hguard|]. split.
  - intros [master Hmaster]. unfold importRandomAddress, import_prepare.
    munfold. simpl. now rewrite Hmaster.
  - intros [|]; unfold importRandomAddress.
    + unfold bind at 1.
      destruct (import_prepare address passphrase true σ)
        as [[e|[]] σ1] eqn:E; simpl.
      * intros [= ->]. unfold import_prepare in E. munfold. simpl in E.
        repeat case_match; simplify_eq.
        all: unfold deref, assign in *; repeat case_match; simplify_eq.
      * destruct (Hguard σ1 eq_refl) as [_ Hfalse].
        unfold bind at 1. rewrite Hfalse.
        unfold bind, assign, modifyThis.
        destruct (heap σ1 !! address); simpl; discriminate.
    + unfold bind at 1.
      destruct (import_prepare address passphrase false σ)
        as [[e|[]] σ1] eqn:E; simpl; [|discriminate].
      intros [= ->]. unfold import_prepare in E. munfold. simpl in E.
      repeat case_match; simplify_eq.
      all: unfold deref, assign in *; repeat case_match; simplify_eq.
Qed.

(** C3: [importRandomAddress] leaves the lifecycle state as it finds
    it, on both paths and whether it returns or throws: a wallet that
    is EMPTY before an import is EMPTY after it. *)
Theorem importRandomAddress_leaves_STATE address passphrase isHDMasterNode σ :
  STATE (this (importRandomAddress address passphrase isHDMasterNode σ).2)
  = STATE (this σ).
Proof. apply importRandomAddress_same_STATE. Qed.

(** *** getBalance *)

Lemma not_EMPTY_READY (s : WalletState) : s ≠ EMPTY → s = READY.
Proof. now destruct s. Qed.

Lemma allAddresses_READY σ :
  STATE (this σ) = READY →
  allAddresses σ
  = (inr (ADDRESSES (this σ) ++ RANDOM_ADDRESSES (this σ)), σ).
Proof.
  intros E. destruct σ as [h [] rq]. simpl in E. subst. reflexivity.
Qed.

(** The hashes of valid references, one for each reference. *)
Lemma hashes_Forall2 h ls :
  valid h ls →
  Forall2 (λ l x, hash <$> h !! l = Some x) ls (hashes h ls).
Proof.
  unfold valid, hashes. induction 1 as [|l ls [a Ha] _ IH]; simpl.
  - constructor.
  - rewrite Ha. simpl. constructor; [now rewrite Ha | exact IH].
Qed.

Lemma filter_by_hash_spec addressHash σ ls :
  valid (heap σ) ls →
  filter_by_hash addressHash ls σ
  = (inr (filter (λ l, hash <$> heap σ !! l = Some addressHash) ls), σ).
Proof.
  unfold valid. induction 1 as [|l ls [a Ha] _ IH]; simpl; [reflexivity|].
  unfold bind at 1. unfold deref. rewrite Ha.
  unfold bind at 1. rewrite IH. unfold ret.
  rewrite filter_cons. rewrite Ha. simpl.
  destruct (decide (hash a = addressHash)) as [->|Hne].
  - now rewrite decide_True.
  - rewrite decide_False; [reflexivity | congruence].
Qed.

Lemma filter_by_hash_empty addressHash h ls :
  valid h ls →
  length (filter (λ l, hash <$> h !! l = Some addressHash) ls) = 0%nat
  ↔ addressHash ∉ hashes h ls.
Proof.
  unfold valid, hashes. induction 1 as [|l ls [a Ha] _ IH]; simpl.
  - split; [intros _; apply not_elem_of_nil | reflexivity].
  - rewrite filter_cons, Ha. simpl. rewrite not_elem_of_cons.
    destruct (decide (Some (hash a) = Some addressHash)) as [E|Hne]; simpl.
    + split; [discriminate | intros [Hne _]; congruence].
    + rewrite IH. split; [intros Hn; split; [congruence | exact Hn] | tauto].
Qed.

(** C7: on a wallet that is not EMPTY, [getBalance(addressHash)] with
    a hash that none of the HD and random addresses has fails with a
    membership error and leaves the world, and so the log of requests,
    as it is; with a hash that one of them has, it sends one request
    for that hash, and returns what the request returns or throws what
    it throws. *)
Theorem getBalance_of_address σ addressHash :
  STATE (this σ) ≠ EMPTY →
  let all := ADDRESSES (this σ) ++ RANDOM_ADDRESSES (this σ) in
  valid (heap σ) all →
  (addressHash ∉ hashes (heap σ) all →
     getBalance (Some addressHash) σ = (inl ErrGetBalanceForeign, σ)
     ∧ kind ErrGetBalanceForeign = Some MembershipError)
  ∧ (addressHash ∈ hashes (heap σ) all →
     getBalance (Some addressHash) σ
     = (match getBalanceFor addressHash with
        | inl err => inl (Thrown err)
        | inr balance => inr balance
        end,
        mkWorld (heap σ) (this σ) (requests σ ++ [addressHash]))).
Proof.
  intros Hstate all Hvalid.
  assert (Hready := not_EMPTY_READY _ Hstate).
  assert (Hrun : getBalance (Some addressHash) σ
    = if decide (length (filter
           (λ l, hash <$> heap σ !! l = Some addressHash) all) = 0%nat)
      then (inl ErrGetBalanceForeign, σ)
      else request addressHash σ).
  { unfold getBalance. unfold bind at 1. unfold getThis.
    rewrite decide_False by exact Hstate.
    unfold bind at 1. rewrite (allAddresses_READY σ Hready).
    unfold bind at 1. rewrite (filter_by_hash_spec _ _ _ Hvalid).
    fold all. now destruct (decide _). }
  rewrite Hrun. split; intros Hin.
  - split; [|reflexivity].
    rewrite decide_True; [reflexivity|].
    now apply filter_by_hash_empty.
  - rewrite decide_False.
    + unfold request. now destruct (getBalanceFor addressHash).
    + intros Hempty. now apply filter_by_hash_empty in Hempty.
Qed.

(** One turn of the loop of [getBalance()], at index [n]. *)
Lemma getBalance_loop_step σ hs n x total rq :
  STATE (this σ) = READY →
  Forall2 (λ l x, hash <$> heap σ !! l = Some x)
    (ADDRESSES (this σ) ++ RANDOM_ADDRESSES (this σ)) hs →
  hs !! n = Some x →
  getBalance_loop (S n) total (mkWorld (heap σ) (this σ) rq)
  = match getBalanceFor x with
    | inl err => (inl (Thrown err), mkWorld (heap σ) (this σ) (rq ++ [x]))
    | inr balance =>
        getBalance_loop n (total + balance)%float
          (mkWorld (heap σ) (this σ) (rq ++ [x]))
    end.
Proof.
  intros Hready Hall Hx.
  destruct (Forall2_lookup_r _ _ _ _ _ Hall Hx) as (l & Hl & Hhash).
  apply fmap_Some in Hhash as (a & Ha & ->).
  cbn [getBalance_loop]. unfold bind at 1.
  rewrite allAddresses_READY by exact Hready. cbn [this].
  rewrite Hl. unfold bind at 1. unfold deref. cbn [heap]. rewrite Ha.
  unfold bind, request. cbn [heap this requests].
  now destruct (getBalanceFor (hash a)).
Qed.

(** The turns of the loop over a run [post] of addresses whose requests
    all succeed: they are taken from the last to the first. *)
Lemma getBalance_loop_suffix σ hs :
  STATE (this σ) = READY →
  Forall2 (λ l x, hash <$> heap σ !! l = Some x)
    (ADDRESSES (this σ) ++ RANDOM_ADDRESSES (this σ)) hs →
  ∀ post pre done bs total rq,
    hs = pre ++ post ++ done →
    Forall2 (λ h b, getBalanceFor h = inr b) post bs →
    getBalance_loop (length pre + length post) total
      (mkWorld (heap σ) (this σ) rq)
    = getBalance_loop (length pre) (fold_left PrimFloat.add (rev bs) total)
        (mkWorld (heap σ) (this σ) (rq ++ rev post)).
Proof.
  intros Hready Hall post.
  induction post as [|x post IH] using rev_ind;
    intros pre done bs total rq Hhs Hbs.
  - apply Forall2_nil_inv_l in Hbs as ->. simpl.
    now rewrite Nat.add_0_r, app_nil_r.
  - apply Forall2_app_inv_l in Hbs as (bs1 & bs2 & Hbs1 & Hbs2 & ->).
    apply Forall2_cons_inv_l in Hbs2 as (b & bs3 & Hb & Hnil & ->).
    apply Forall2_nil_inv_l in Hnil as ->.
    rewrite length_app. simpl length.
    replace (length pre + (length post + 1))%nat
      with (S (length pre + length post)) by lia.
    assert (Hx : hs !! (length pre + length post)%nat = Some x).
    { rewrite Hhs, <- app_assoc, app_assoc. simpl.
      rewrite <- length_app. apply list_lookup_middle. reflexivity. }
    rewrite (getBalance_loop_step σ hs _ x total rq Hready Hall Hx), Hb.
    rewrite (IH pre (x :: done) bs1 _ _); [|now rewrite Hhs, <- app_assoc|exact Hbs1].
    rewrite !rev_app_distr. simpl. now rewrite <- app_assoc.
Qed.

(** C8 (amended): on a wallet that is not EMPTY, [getBalance()] sends
    one request for each address of [allAddresses], from the last
    address to the first.  When all the requests succeed it returns
    their floating-point sum, accumulated from 0 in that order.  When
    a request fails, the call throws the error of that request at
    once: the addresses before it are never asked, and no total is
    returned. *)
Theorem getBalance_total σ :
  STATE (this σ) ≠ EMPTY →
  let all := ADDRESSES (this σ) ++ RANDOM_ADDRESSES (this σ) in
  valid (heap σ) all →
  (∀ balances,
     Forall2 (λ h b, getBalanceFor h = inr b) (hashes (heap σ) all) balances →
     getBalance None σ
     = (inr (fold_left PrimFloat.add (rev balances) 0%float),
        mkWorld (heap σ) (this σ)
          (requests σ ++ rev (hashes (heap σ) all))))
  ∧ (∀ before h after balances err,
       hashes (heap σ) all = before ++ h :: after →
       Forall2 (λ h b, getBalanceFor h = inr b) after balances →
       getBalanceFor h = inl err →
       getBalance None σ
       = (inl (Thrown err),
          mkWorld (heap σ) (this σ) (requests σ ++ rev after ++ [h]))).
Proof.
  intros Hstate all Hvalid.
  assert (Hready := not_EMPTY_READY _ Hstate).
  assert (Hall := hashes_Forall2 _ _ Hvalid).
  assert (Hlen := Forall2_length _ _ _ Hall).
  assert (Hrun : getBalance None σ
    = getBalance_loop (length (hashes (heap σ) all)) 0%float
        (mkWorld (heap σ) (this σ) (requests σ))).
  { unfold getBalance. unfold bind at 1. unfold getThis.
    rewrite decide_False by exact Hstate.
    unfold bind at 1. rewrite (allAddresses_READY σ Hready).
    fold all. now rewrite Hlen, World_eta. }
  rewrite Hrun. split.
  - intros balances Hbs.
    pose proof (getBalance_loop_suffix σ _ Hready Hall
                  (hashes (heap σ) all) [] [] balances 0%float (requests σ))
      as Hloop.
    cbn [length Nat.add] in Hloop.
    rewrite Hloop; [reflexivity | now rewrite app_nil_r | exact Hbs].
  - intros before h after balances err Hhs Hbs Herr.
    rewrite Hhs at 1. rewrite length_app. simpl length.
    replace (length before + S (length after))%nat
      with (length (before ++ [h]) + length after)%nat
      by (rewrite length_app; simpl; lia).
    rewrite (getBalance_loop_suffix σ _ Hready Hall
               after (before ++ [h]) [] balances 0%float (requests σ));
      [|now rewrite app_nil_r, <- app_assoc|exact Hbs].
    rewrite length_app. simpl length.
    replace (length before + 1)%nat with (S (length before)) by lia.
    assert (Hh : hashes (heap σ) all !! length before = Some h).
    { rewrite Hhs. now apply list_lookup_middle. }
    rewrite (getBalance_loop_step σ _ _ h _ _ Hready Hall Hh), Herr.
    now rewrite <- app_assoc.
Qed.

(** *** generate *)

Lemma set_ADDRESSES_id w : set_ADDRESSES (ADDRESSES w) w = w.
Proof. now destruct w. Qed.

Lemma generate_chain_run chainIndex σ master m :
  MASTER_NODE_ADDRESS (this σ) = Some master →
  heap σ !! master = Some m →
  generate_chain chainIndex σ
  = match getDerivedChainFromMasterNodePrivateKey
            (privateKey m) WALLET_INDEX chainIndex with
    | inl err => (inl (Thrown err), σ)
    | inr address => (inr tt, pushed σ [address])
    end.
Proof.
  intros Hmaster Hm. unfold generate_chain, pushed.
  unfold bind at 1. unfold getThis. rewrite Hmaster.
  unfold bind at 1. unfold deref. rewrite Hm.
  unfold bind at 1.
  destruct (getDerivedChainFromMasterNodePrivateKey _ _ _); reflexivity.
Qed.

Lemma pushed_nil σ : pushed σ [] = σ.
Proof.
  unfold pushed. simpl. rewrite !app_nil_r, set_ADDRESSES_id.
  apply World_eta.
Qed.

Lemma pushed_cons σ d ds :
  pushed (pushed σ [d]) ds = pushed σ (d :: ds).
Proof.
  unfold pushed. simpl. rewrite <- !app_assoc. simpl.
  rewrite length_app. simpl.
  now replace (length (heap σ) + 1)%nat with (S (length (heap σ))) by lia.
Qed.

(** A loop that completes has derived one address for each index
    from [chainIndex + 1] up to [chainsCount - 1], in that order, and
    has pushed them in that order. *)
Lemma generate_chains_inv fuel :
  ∀ chainIndex chainsCount σ σ' master m,
    MASTER_NODE_ADDRESS (this σ) = Some master →
    heap σ !! master = Some m →
    generate_chains fuel chainIndex chainsCount σ = (inr tt, σ') →
    ∃ chains,
      length chains = Z.to_nat (chainsCount - (chainIndex + 1))
      ∧ (∀ (i : nat) d, chains !! i = Some d →
           getDerivedChainFromMasterNodePrivateKey
             (privateKey m) WALLET_INDEX (chainIndex + 1 + Z.of_nat i)
           = inr d)
      ∧ σ' = pushed σ chains.
Proof.
  induction fuel as [|fuel IH];
    intros chainIndex chainsCount σ σ' master m Hmaster Hm Hrun;
    cbn [generate_chains] in Hrun;
    destruct (decide (chainIndex + 1 < chainsCount)) as [Hlt|Hge].
  - discriminate.
  - injection Hrun as <-. exists []. rewrite pushed_nil.
    split; [simpl; lia|]. split; [|reflexivity].
    intros i d Hd. now rewrite lookup_nil in Hd.
  - apply bind_inr_inv in Hrun as ([] & σ1 & Hstep & Hrun).
    rewrite (generate_chain_run _ _ _ _ Hmaster Hm) in Hstep.
    destruct (getDerivedChainFromMasterNodePrivateKey _ _ _) as [|d] eqn:Hd;
      [discriminate|]. injection Hstep as <-.
    apply (IH _ _ _ _ master m) in Hrun as (chains & Hlen & Hchains & ->).
    + exists (d :: chains). rewrite pushed_cons.
      split; [simpl; lia|]. split; [|reflexivity].
      intros [|i] d' Hd'; simpl in Hd'.
      * injection Hd' as <-. now rewrite Z.add_0_r.
      * rewrite <- (Hchains i d' Hd'). f_equal. lia.
    + exact Hmaster.
    + unfold pushed. cbn [heap]. apply lookup_app_l_Some. exact Hm.
  - injection Hrun as <-. exists []. rewrite pushed_nil.
    split; [simpl; lia|]. split; [|reflexivity].
    intros i d Hd. now rewrite lookup_nil in Hd.
Qed.

(** The fuel given by [generate] is enough: when every derivation
    succeeds the loop completes. *)
Lemma generate_chains_ok chains :
  ∀ fuel chainIndex chainsCount σ master m,
    MASTER_NODE_ADDRESS (this σ) = Some master →
    heap σ !! master = Some m →
    chainsCount = chainIndex + 1 + Z.of_nat (length chains) →
    (length chains ≤ fuel)%nat →
    (∀ (i : nat) d, chains !! i = Some d →
       getDerivedChainFromMasterNodePrivateKey
         (privateKey m) WALLET_INDEX (chainIndex + 1 + Z.of_nat i)
       = inr d) →
    generate_chains fuel chainIndex chainsCount σ = (inr tt, pushed σ chains).
Proof.
  induction chains as [|d chains IH];
    intros fuel chainIndex chainsCount σ master m Hmaster Hm Hcount Hfuel Hds.
  - simpl in Hcount. destruct fuel; cbn [generate_chains];
      rewrite decide_False by lia; now rewrite pushed_nil.
  - simpl in Hcount, Hfuel. destruct fuel as [|fuel]; [lia|].
    cbn [generate_chains]. rewrite decide_True by lia.
    unfold bind. rewrite (generate_chain_run _ _ _ _ Hmaster Hm).
    pose proof (Hds 0%nat d eq_refl) as Hd. simpl in Hd.
    rewrite Z.add_0_r in Hd. rewrite Hd.
    rewrite (IH fuel (chainIndex + 1) chainsCount _ master m);
      [now rewrite pushed_cons | exact Hmaster | | lia | lia |].
    + unfold pushed. cbn [heap]. apply lookup_app_l_Some. exact Hm.
    + intros i d' Hd'. rewrite <- (Hds (S i) d' Hd'). f_equal. lia.
Qed.

Lemma generate_mnemonic_inv mnemonic σ words σ0 :
  generate_mnemonic mnemonic σ = (inr words, σ0) →
  match mnemonic with
  | Some given => words = given ∧ validateMnemonic given = true ∧ σ0 = σ
  | None =>
      getRandomMnemonic = inr words
      ∧ σ0 = mkWorld (heap σ) (set_MNEMONIC (Some words) (this σ)) (requests σ)
  end.
Proof.
  unfold generate_mnemonic. destruct mnemonic as [given|].
  - destruct (validateMnemonic given); [|discriminate].
    intros [= <- <-]. now repeat split.
  - munfold. destruct getRandomMnemonic; [discriminate|].
    simpl. intros [= <- <-]. now split.
Qed.

(** [generate] returns when its collaborators do, and leaves
    [after_generate]: the loop is given enough fuel. *)
Lemma generate_run σ mnemonic mnemonicExtension chainsCount
    words master chains :
  STATE (this σ) ≠ READY →
  match mnemonic with
  | Some given => words = given ∧ validateMnemonic given = true
  | None => getRandomMnemonic = inr words
  end →
  getMasterNodeAddressFromMnemonic words mnemonicExtension = inr master →
  Z.of_nat (length chains) = chainsCount →
  (∀ (i : nat) d, chains !! i = Some d →
     getDerivedChainFromMasterNodePrivateKey
       (Address.privateKey master) WALLET_INDEX (Z.of_nat i)
     = inr d) →
  generate mnemonic mnemonicExtension chainsCount σ
  = (inr tt, after_generate σ mnemonic words master chains).
Proof.
  intros Hstate Hwords Hmaster Hcount Hchains.
  assert (Hσ0 : generate_mnemonic mnemonic σ
                = (inr words,
                   mkWorld (heap σ)
                     match mnemonic with
                     | Some _ => this σ
                     | None => set_MNEMONIC (Some words) (this σ)
                     end (requests σ))).
  { unfold generate_mnemonic. destruct mnemonic as [given|].
    - destruct Hwords as [-> ->]. unfold ret. now rewrite World_eta.
    - munfold. now rewrite Hwords. }
  unfold generate. unfold bind at 1. unfold getThis.
  rewrite decide_False by exact Hstate.
  unfold bind at 1. rewrite Hσ0.
  unfold bind at 1. rewrite Hmaster. unfold liftE, ret.
  unfold bind at 1. unfold alloc.
  unfold bind at 1. unfold modifyThis at 1.
  unfold bind at 1. cbn [heap this requests].
  erewrite (generate_chains_ok chains _ _ _ _ (length (heap σ))
              (withLabelNull master)).
  - unfold modifyThis, pushed, after_generate. cbn.
    rewrite <- !app_assoc, length_app. simpl.
    replace (length (heap σ) + 1)%nat with (S (length (heap σ))) by lia.
    now destruct mnemonic.
  - reflexivity.
  - cbn [heap]. now apply list_lookup_middle.
  - lia.
  - lia.
  - intros i d Hd. rewrite <- (Hchains i d Hd). f_equal; lia.
Qed.

(** C9: on a READY wallet [generate] fails with a state error and
    changes nothing, whatever [chainsCount].  On an EMPTY wallet and for
    [chainsCount ≥ 1], [generate] returns exactly when the mnemonic is
    valid or, when none is given, a random one is produced, the master
    node is derived from the mnemonic, and one chain address is derived
    from the private key of the master node, with the wallet index
    [WALLET_INDEX], for each chain index 0, 1, ..., [chainsCount - 1];
    and the world it leaves is then [after_generate].  In that world
    the master node is a new object with a null label, stored in
    [MASTER_NODE_ADDRESS]; exactly [chainsCount] chain addresses have
    been appended to [ADDRESSES], in the order of their indices, each a
    new object with a null label; and the state is READY. *)
Theorem generate_spec σ mnemonic mnemonicExtension chainsCount :
  (STATE (this σ) = READY →
     generate mnemonic mnemonicExtension chainsCount σ
     = (inl ErrGenerateReady, σ)
     ∧ kind ErrGenerateReady = Some StateError)
  ∧ (STATE (this σ) = EMPTY → (1 ≤ chainsCount)%Z →
     ∀ σ',
       generate mnemonic mnemonicExtension chainsCount σ = (inr tt, σ')
       ↔ ∃ words master chains,
           match mnemonic with
           | Some given => words = given ∧ validateMnemonic given = true
           | None => getRandomMnemonic = inr words
           end
           ∧ getMasterNodeAddressFromMnemonic words mnemonicExtension
             = inr master
           ∧ Z.of_nat (length chains) = chainsCount
           ∧ (∀ (i : nat) d, chains !! i = Some d →
                getDerivedChainFromMasterNodePrivateKey
                  (Address.privateKey master) WALLET_INDEX (Z.of_nat i)
                = inr d)
           ∧ σ' = after_generate σ mnemonic words master chains)
  ∧ (∀ words master chains,
       let σ' := after_generate σ mnemonic words master chains in
       heap σ' = heap σ ++ withLabelNull master :: (withLabelNull <$> chains)
       ∧ MASTER_NODE_ADDRESS (this σ') = Some (length (heap σ))
       ∧ heap σ' !! length (heap σ) = Some (withLabelNull master)
       ∧ label (withLabelNull master) = None
       ∧ ADDRESSES (this σ')
         = ADDRESSES (this σ) ++ seq (S (length (heap σ))) (length chains)
       ∧ (∀ (i : nat) d, chains !! i = Some d →
            heap σ' !! (S (length (heap σ)) + i)%nat = Some (withLabelNull d)
            ∧ label (withLabelNull d) = None)
       ∧ STATE (this σ') = READY).
Proof.
  split; [|split].
  - intros Hready. split; [|reflexivity].
    unfold generate. unfold bind at 1. unfold getThis.
    now rewrite decide_True by exact Hready.
  - intros Hempty Hcount σ'. split.
    + intros Hrun. pose proof Hrun as Hrun0. unfold generate in Hrun.
      unfold bind at 1 in Hrun. unfold getThis in Hrun.
      rewrite decide_False in Hrun by (rewrite Hempty; discriminate).
      apply bind_inr_inv in Hrun as (words & σ0 & Hwords & Hrun).
      apply generate_mnemonic_inv in Hwords.
      apply bind_inr_inv in Hrun as (master & σ1 & Hmaster & Hrun).
      unfold liftE in Hmaster.
      destruct (getMasterNodeAddressFromMnemonic words mnemonicExtension)
        as [|master'] eqn:Hderive; [discriminate|].
      injection Hmaster as -> <-.
      apply bind_inr_inv in Hrun as (l & σ2 & Halloc & Hrun).
      injection Halloc as <- <-.
      apply bind_inr_inv in Hrun as ([] & σ3 & Hset & Hrun).
      injection Hset as <-.
      apply bind_inr_inv in Hrun as ([] & σ4 & Hloop & Hrun).
      injection Hrun as <-.
      apply (generate_chains_inv _ _ _ _ _ (length (heap σ0))
               (withLabelNull master)) in Hloop
        as (chains & Hlen & Hchains & ->);
        [|reflexivity|cbn [heap]; now apply list_lookup_middle].
      exists words, master, chains.
      assert (Hwords' : match mnemonic with
                        | Some given =>
                            words = given ∧ validateMnemonic given = true
                        | None => getRandomMnemonic = inr words
                        end) by (destruct mnemonic; tauto).
      assert (Hchains' : ∀ (i : nat) d, chains !! i = Some d →
                getDerivedChainFromMasterNodePrivateKey
                  (Address.privateKey master) WALLET_INDEX (Z.of_nat i)
                = inr d).
      { intros i d Hd. rewrite <- (Hchains i d Hd). f_equal; lia. }
      split; [exact Hwords'|]. split; [exact Hderive|].
      split; [lia|]. split; [exact Hchains'|].
      rewrite (generate_run σ mnemonic mnemonicExtension chainsCount
                 words master chains) in Hrun0;
        [congruence | rewrite Hempty; discriminate
        | assumption | assumption | lia | assumption].
    + intros (words & master & chains & Hwords & Hmaster & Hlen & Hchains & ->).
      apply generate_run; try assumption. rewrite Hempty. discriminate.
  - intros words master chains σ'. subst σ'. unfold after_generate.
    cbn [heap this].
    split; [reflexivity|]. split; [reflexivity|].
    split; [now apply list_lookup_middle|]. split; [reflexivity|].
    split; [reflexivity|]. split; [|reflexivity].
    intros i d Hd. split; [|reflexivity].
    rewrite lookup_app_r by lia.
    replace (S (length (heap σ)) + i - length (heap σ))%nat with (S i) by lia.
    simpl. now rewrite list_lookup_fmap, Hd.
Qed.
(** *** lock and unlock *)

Lemma forEach_app f ls1 ls2 σ :
  forEach f (ls1 ++ ls2) σ = (forEach f ls1 >> forEach f ls2) σ.
Proof.
  revert σ. induction ls1 as [|l ls1 IH]; intros σ; simpl.
  - reflexivity.
  - unfold bind in *. destruct (f l σ) as [[e|[]] σ1]; [reflexivity|].
    apply IH.
Qed.

(** [lock] on a READY wallet without remote node: the master node,
    the HD addresses and the random addresses are visited in that
    order. *)
Lemma lock_local passphrase σ :
  STATE (this σ) = READY →
  rpc (this σ) = None →
  lock passphrase σ
  = (forEach (cipher_at passphrase) (held (this σ)) >>
     modifyThis (set_MNEMONIC None) >>
     modifyThis (set_IS_LOCKED true)) σ.
Proof.
  intros Hready Hlocal. unfold lock, held.
  unfold bind at 1. unfold getThis.
  rewrite decide_False by (rewrite Hready; auto). rewrite Hlocal.
  unfold bind at 5. rewrite !forEach_app.
  destruct (MASTER_NODE_ADDRESS (this σ)) as [master|]; simpl;
    repeat first
      [ reflexivity
      | rewrite forEach_app in *
      | progress unfold bind, ret in *
      | progress simplify_eq
      | case_match ].
Qed.

Lemma unlock_local passphrase forStakingOnly σ :
  STATE (this σ) = READY →
  rpc (this σ) = None →
  unlock passphrase forStakingOnly σ
  = (forEach (decipher_at passphrase) (held (this σ)) >>
     modifyThis (set_IS_LOCKED false)) σ.
Proof.
  intros Hready Hlocal. unfold unlock, held.
  unfold bind at 1. unfold getThis.
  rewrite decide_False by (rewrite Hready; auto). rewrite Hlocal.
  unfold bind at 4. rewrite !forEach_app.
  destruct (MASTER_NODE_ADDRESS (this σ)) as [master|]; simpl;
    repeat first
      [ reflexivity
      | rewrite forEach_app in *
      | progress unfold bind, ret in *
      | progress simplify_eq
      | case_match ].
Qed.

(** Ciphering an object whose flag says it is not ciphered: the key
    is replaced, the flag is not touched. *)
Lemma cipher_at_run passphrase l σ a :
  heap σ !! l = Some a →
  isCiphered a = false →
  cipher_at passphrase l σ
  = match cipherPrivateKey (privateKey a) passphrase with
    | inl err => (inl (Thrown err), σ)
    | inr key =>
        (inr tt,
         mkWorld (<[l := set_privateKey key a]> (heap σ)) (this σ)
           (requests σ))
    end.
Proof.
  intros Ha Hflag. unfold cipher_at. unfold bind at 1. unfold deref.
  rewrite Ha, Hflag. simpl. unfold bind.
  destruct (cipherPrivateKey (privateKey a) passphrase); simpl;
    [reflexivity|].
  unfold assign. now rewrite Ha.
Qed.

(** Deciphering skips an object whose flag says it is not ciphered. *)
Lemma decipher_at_skip passphrase l σ :
  isCiphered <$> heap σ !! l = Some false →
  decipher_at passphrase l σ = (inr tt, σ).
Proof.
  intros Hl. apply fmap_Some in Hl as (a & Ha & Hflag).
  unfold decipher_at, bind, deref. now rewrite Ha, <- Hflag.
Qed.

Lemma forEach_decipher_skip passphrase ls σ :
  unciphered (heap σ) ls →
  forEach (decipher_at passphrase) ls σ = (inr tt, σ).
Proof.
  unfold unciphered. induction 1 as [|l ls Hl _ IH]; simpl; [reflexivity|].
  unfold bind. now rewrite (decipher_at_skip _ _ _ Hl).
Qed.

(** [unlock] deciphers nothing when no flag says ciphered. *)
Lemma unlock_skips passphrase forStakingOnly σ :
  STATE (this σ) = READY →
  rpc (this σ) = None →
  unciphered (heap σ) (held (this σ)) →
  unlock passphrase forStakingOnly σ
  = (inr tt, mkWorld (heap σ) (set_IS_LOCKED false (this σ)) (requests σ)).
Proof.
  intros Hready Hlocal Hflags.
  rewrite (unlock_local _ _ _ Hready Hlocal). unfold bind.
  now rewrite (forEach_decipher_skip _ _ _ Hflags).
Qed.

(** What the loops of [lock] do to distinct objects whose flags say
    not ciphered: each key is ciphered once, each flag is left as it
    is, and nothing else changes. *)
Lemma forEach_cipher_inv passphrase ls :
  ∀ σ σ',
    NoDup ls →
    unciphered (heap σ) ls →
    forEach (cipher_at passphrase) ls σ = (inr tt, σ') →
    this σ' = this σ
    ∧ requests σ' = requests σ
    ∧ (∀ l, l ∉ ls → heap σ' !! l = heap σ !! l)
    ∧ (∀ l a, l ∈ ls → heap σ !! l = Some a →
         ∃ key, cipherPrivateKey (privateKey a) passphrase = inr key
                ∧ heap σ' !! l = Some (set_privateKey key a)).
Proof.
  induction ls as [|l ls IH]; intros σ σ' Hnodup Hflags Hrun.
  - injection Hrun as <-.
    split; [reflexivity|]. split; [reflexivity|]. split; [now intros|].
    intros l a Hl. now apply elem_of_nil in Hl.
  - apply NoDup_cons in Hnodup as [Hl Hnodup].
    apply Forall_cons in Hflags as [Hflag Hflags].
    apply fmap_Some in Hflag as (a & Ha & Hfalse). symmetry in Hfalse.
    simpl in Hrun. apply bind_inr_inv in Hrun as ([] & σ1 & Hstep & Hrun).
    rewrite (cipher_at_run _ _ _ _ Ha Hfalse) in Hstep.
    destruct (cipherPrivateKey (privateKey a) passphrase) as [|key] eqn:Hkey;
      [discriminate|]. injection Hstep as <-.
    apply IH in Hrun as (Hthis & Hrequests & Hother & Hciphered);
      [|exact Hnodup|].
    + cbn [heap this requests] in *.
      split; [assumption|]. split; [assumption|]. split.
      * intros l' Hl'. apply not_elem_of_cons in Hl' as [Hne Hl'].
        rewrite (Hother l' Hl'). now apply list_lookup_insert_ne.
      * intros l' a' Hl' Ha'. apply elem_of_cons in Hl' as [->|Hl'].
        -- assert (a' = a) as -> by congruence.
           exists key. split; [exact Hkey|].
           rewrite (Hother l Hl). apply list_lookup_insert_eq.
           now apply lookup_lt_Some in Ha.
        -- apply Hciphered; [exact Hl'|].
           rewrite list_lookup_insert_ne; [exact Ha'|].
           intros ->. contradiction.
    + unfold unciphered. cbn [heap].
      apply Forall_forall. intros l' Hl'.
      rewrite list_lookup_insert_ne by (intros ->; contradiction).
      exact (proj1 (Forall_forall _ _) Hflags l' Hl').
Qed.

(** The same for [lock] itself. *)
Lemma lock_inv passphrase σ σ1 :
  STATE (this σ) = READY →
  rpc (this σ) = None →
  NoDup (held (this σ)) →
  unciphered (heap σ) (held (this σ)) →
  lock passphrase σ = (inr tt, σ1) →
  this σ1 = set_IS_LOCKED true (set_MNEMONIC None (this σ))
  ∧ unciphered (heap σ1) (held (this σ))
  ∧ (∀ l a, l ∈ held (this σ) → heap σ !! l = Some a →
       ∃ key, cipherPrivateKey (privateKey a) passphrase = inr key
              ∧ heap σ1 !! l = Some (set_privateKey key a)).
Proof.
  intros Hready Hlocal Hnodup Hflags Hrun.
  rewrite (lock_local _ _ Hready Hlocal) in Hrun.
  apply bind_inr_inv in Hrun as ([] & σ' & Hloop & Hrun).
  injection Hrun as <-.
  apply forEach_cipher_inv in Hloop as (Hthis & _ & _ & Hciphered);
    [|assumption..].
  cbn [heap this]. rewrite Hthis. split; [reflexivity|]. split; [|exact Hciphered].
  apply Forall_forall. intros l Hl.
  pose proof (proj1 (Forall_forall _ _) Hflags l Hl) as Hflag.
  simpl in Hflag. apply fmap_Some in Hflag as (a & Ha & Hfalse).
  destruct (Hciphered l a Hl Ha) as (key & _ & ->). simpl. now rewrite Hfalse.
Qed.

(** No call of [lock] or [unlock], on any wallet and whether it
    returns or throws, changes the [isCiphered] flag of any object. *)
Lemma cipher_at_same_flags passphrase l :
  preserves same_flags (cipher_at passphrase l).
Proof.
  unfold cipher_at. preserve_steps. now apply same_flags_assign.
Qed.

Lemma decipher_at_same_flags passphrase l :
  preserves same_flags (decipher_at passphrase l).
Proof.
  unfold decipher_at. preserve_steps. now apply same_flags_assign.
Qed.

Lemma lock_same_flags passphrase :
  preserves same_flags (lock passphrase).
Proof.
  unfold lock. preserve_steps;
    first [ apply cipher_at_same_flags | apply same_flags_modifyThis ].
Qed.

Lemma unlock_same_flags passphrase forStakingOnly :
  preserves same_flags (unlock passphrase forStakingOnly).
Proof.
  unfold unlock. preserve_steps;
    first [ apply decipher_at_same_flags | apply same_flags_modifyThis ].
Qed.

(** C1: take a READY wallet without remote node whose addresses are
    distinct objects, none of them flagged as ciphered.  A call of
    [lock] that returns has replaced the private key of every address
    by its ciphered form and has left every [isCiphered] flag false.
    The call of [unlock] that follows therefore returns without
    deciphering anything: it only clears [IS_LOCKED], and every
    private key is still the ciphered one. *)
Theorem lock_unlock_keeps_ciphertext passphrase forStakingOnly σ σ1 :
  STATE (this σ) = READY →
  rpc (this σ) = None →
  NoDup (held (this σ)) →
  unciphered (heap σ) (held (this σ)) →
  lock passphrase σ = (inr tt, σ1) →
  (∀ l a, l ∈ held (this σ) → heap σ !! l = Some a →
     ∃ key, cipherPrivateKey (privateKey a) passphrase = inr key
            ∧ heap σ1 !! l = Some (set_privateKey key a)
            ∧ isCiphered (set_privateKey key a) = false)
  ∧ unlock passphrase forStakingOnly σ1
    = (inr tt,
       mkWorld (heap σ1) (set_IS_LOCKED false (this σ1)) (requests σ1)).
Proof.
  intros Hready Hlocal Hnodup Hflags Hrun.
  destruct (lock_inv _ _ _ Hready Hlocal Hnodup Hflags Hrun)
    as (Hthis & Hflags1 & Hciphered).
  split.
  - intros l a Hl Ha. destruct (Hciphered l a Hl Ha) as (key & Hkey & Hl1).
    exists key. repeat split; [assumption..|].
    pose proof (proj1 (Forall_forall _ _) Hflags l Hl) as Hflag.
    simpl in Hflag. rewrite Ha in Hflag. now injection Hflag.
  - apply unlock_skips; rewrite ?Hthis; try assumption.
Qed.

(** On the same wallets, a second call of [lock] that returns has
    ciphered every private key a second time: each key is then the
    ciphered form of its ciphered form.  The flags do not protect the
    keys; only a cipher that refuses its own output does. *)
Theorem lock_twice_ciphers_twice passphrase σ σ1 σ2 :
  STATE (this σ) = READY →
  rpc (this σ) = None →
  NoDup (held (this σ)) →
  unciphered (heap σ) (held (this σ)) →
  lock passphrase σ = (inr tt, σ1) →
  lock passphrase σ1 = (inr tt, σ2) →
  ∀ l a, l ∈ held (this σ) → heap σ !! l = Some a →
    ∃ once twice,
      cipherPrivateKey (privateKey a) passphrase = inr once
      ∧ cipherPrivateKey once passphrase = inr twice
      ∧ heap σ1 !! l = Some (set_privateKey once a)
      ∧ heap σ2 !! l = Some (set_privateKey twice a).
Proof.
  intros Hready Hlocal Hnodup Hflags Hrun1 Hrun2 l a Hl Ha.
  destruct (lock_inv _ _ _ Hready Hlocal Hnodup Hflags Hrun1)
    as (Hthis & Hflags1 & Hciphered1).
  destruct (Hciphered1 l a Hl Ha) as (once & Honce & Hl1).
  assert (Hheld : held (this σ1) = held (this σ)) by now rewrite Hthis.
  apply lock_inv in Hrun2 as (_ & _ & Hciphered2);
    rewrite ?Hheld, ?Hthis; try assumption.
  rewrite Hheld in Hciphered2.
  destruct (Hciphered2 l _ Hl Hl1) as (twice & Htwice & Hl2).
  exists once, twice. now repeat split.
Qed.
End Facts.

(** ** The class at work on concrete wallets *)

Section Runs.
#[local] Existing Instances
  Sample.crypto Sample.electra Sample.webServices Sample.remoteNode.
Import Sample.

Lemma generate_fresh : generate None None 1 fresh = (inr tt, generated).
Proof. vm_compute. reflexivity. Qed.

Lemma lock_generated : lock "pw" generated = (inr tt, locked).
Proof. vm_compute. reflexivity. Qed.

Lemma lock_locked : lock "pw" locked = (inr tt, locked_twice).
Proof. vm_compute. reflexivity. Qed.

Lemma held_generated_NoDup : NoDup (held (this generated)).
Proof. compute_done. Qed.

Lemma generated_unciphered :
  unciphered (heap generated) (held (this generated)).
Proof. compute_done. Qed.

Lemma append_cons c (a b : string) : String c a +:+ b = String c (a +:+ b).
Proof. reflexivity. Qed.

Lemma append_assoc (a b c : string) : (a +:+ b) +:+ c = a +:+ b +:+ c.
Proof.
  induction a as [|x a IH]; [reflexivity|].
  now rewrite !append_cons, IH.
Qed.

Lemma prefix_append (tag key : string) : String.prefix tag (tag +:+ key) = true.
Proof.
  induction tag as [|c tag IH].
  - now destruct key.
  - rewrite append_cons. simpl. now destruct (Ascii.ascii_dec c c).
Qed.

Lemma substring_all (key : string) :
  String.substring 0 (String.length key) key = key.
Proof. induction key as [|c key IH]; simpl; [reflexivity | now rewrite IH]. Qed.

Lemma substring_append (tag key : string) :
  String.substring (String.length tag)
    (String.length (tag +:+ key) - String.length tag) (tag +:+ key)
  = key.
Proof.
  induction tag as [|c tag IH].
  - change ("" +:+ key) with key. simpl String.length.
    rewrite Nat.sub_0_r. apply substring_all.
  - rewrite append_cons. simpl. exact IH.
Qed.

(** The sample cipher is a cipher: deciphering with the passphrase
    gives the key back, for every key and every passphrase. *)
Lemma decipher_cipher_sample key passphrase :
  cipherPrivateKey key passphrase = inr (passphrase +:+ ":" +:+ key)
  ∧ decipherPrivateKey (passphrase +:+ ":" +:+ key) passphrase = inr key.
Proof.
  split; [reflexivity|]. cbn [decipherPrivateKey crypto].
  rewrite <- append_assoc.
  now rewrite prefix_append, substring_append.
Qed.

(** After [generate], [lock("pw")] and [unlock("pw")] the private key
    of the chain address is still the ciphered key, its flag has been
    false all along, and the wallet says it is unlocked. *)
Lemma lock_unlock_generated :
  lock "pw" generated = (inr tt, locked)
  ∧ privateKey <$> heap generated !! 1%nat
    = Some "xprv(lava rigid cloth)/0/0"
  ∧ (∃ key,
       cipherPrivateKey "xprv(lava rigid cloth)/0/0" "pw" = inr key
       ∧ heap locked !! 1%nat
         = Some (mkWalletAddress "H(xprv(lava rigid cloth)/0/0)" false
                   false None key)
       ∧ key = "pw:xprv(lava rigid cloth)/0/0")
  ∧ unlock "pw" true locked
    = (inr tt,
       mkWorld (heap locked) (set_IS_LOCKED false (this locked)) []).
Proof.
  destruct (lock_unlock_keeps_ciphertext "pw" true generated locked
              eq_refl eq_refl held_generated_NoDup generated_unciphered
              lock_generated) as [Hkeys Hunlock].
  split; [exact lock_generated|]. split; [reflexivity|]. split.
  - destruct (Hkeys 1%nat _ ltac:(compute_done) eq_refl)
      as (key & Hkey & Hl & _).
    exists key. split; [exact Hkey|]. split; [exact Hl|].
    vm_compute in Hkey. now injection Hkey.
  - exact Hunlock.
Defined.

(** With the sample cipher, which accepts its own output, the private
    key of the chain address has been ciphered twice after [generate]
    and two calls of [lock("pw")]. *)
Lemma lock_twice_generated :
  ∃ once twice,
    cipherPrivateKey "xprv(lava rigid cloth)/0/0" "pw" = inr once
    ∧ cipherPrivateKey once "pw" = inr twice
    ∧ privateKey <$> heap locked !! 1%nat = Some once
    ∧ privateKey <$> heap locked_twice !! 1%nat = Some twice
    ∧ twice = "pw:pw:xprv(lava rigid cloth)/0/0".
Proof.
  destruct (lock_twice_ciphers_twice "pw" generated locked locked_twice
              eq_refl eq_refl held_generated_NoDup generated_unciphered
              lock_generated lock_locked
              1%nat _ ltac:(compute_done) eq_refl)
    as (once & twice & Honce & Htwice & H1 & H2).
  exists once, twice.
  split; [exact Honce|]. split; [exact Htwice|].
  split; [now rewrite H1|]. split; [now rewrite H2|].
  vm_compute in Honce. injection Honce as <-.
  vm_compute in Htwice. now injection Htwice.
Defined.

(** A first import into a new wallet returns and leaves the wallet
    EMPTY. *)
Lemma import_into_new_wallet :
  ∃ σ, importRandomAddress 0%nat None false importing = (inr tt, σ)
       ∧ STATE (this importing) = EMPTY
       ∧ RANDOM_ADDRESSES (this σ) = [0%nat]
       ∧ STATE (this σ) = EMPTY.
Proof. eexists. vm_compute. repeat split. Qed.

(** A wallet built with the settings of a remote node is not EMPTY. *)
Lemma constructor_remote_READY :
  STATE (constructor remote_settings) = READY
  ∧ STATE (constructor remote_settings) ≠ EMPTY.
Proof. split; [reflexivity | discriminate]. Qed.

(** [reset] on a locked wallet leaves [IS_LOCKED] true. *)
Lemma reset_locked :
  ∃ σ, reset locked = (inr tt, σ)
       ∧ STATE (this σ) = EMPTY
       ∧ IS_LOCKED (this locked) = true
       ∧ IS_LOCKED (this σ) = true.
Proof. eexists. vm_compute. repeat split. Qed.

(** A wallet generated after that [reset] says it is locked while its
    keys are plaintext, and the safe [export] returns the master node
    with its plaintext key. *)
Lemma reset_generate_export :
  ∃ σ master,
    (reset >> generate None None 1 >> export false) locked
    = (inr {| WalletData.chainsCount := 1;
              WalletData.masterNodeAddress := Some master;
              WalletData.randomAddresses := [] |}, σ)
    ∧ IS_LOCKED (this σ) = true
    ∧ heap σ !! master
      = Some (mkWalletAddress "M(lava rigid cloth)" false true None
                "xprv(lava rigid cloth)").
Proof. do 2 eexists. vm_compute. repeat split. Qed.

(** [export] on the locked wallet: the safe export returns the
    snapshot, the unsafe one fails. *)
Lemma export_locked :
  export false locked
  = (inr {| WalletData.chainsCount := 1;
            WalletData.masterNodeAddress := Some 0%nat;
            WalletData.randomAddresses := [] |}, locked)
  ∧ ∃ e, export true locked = (inl e, locked)
         ∧ kind e = Some InvariantViolation.
Proof.
  split.
  - apply (export_matrix locked false eq_refl). left. now split.
  - apply (export_matrix locked true eq_refl).
    intros [[_ ?]|[? _]]; discriminate.
Defined.

Lemma abc_valid :
  valid (heap abc)
    (ADDRESSES (this abc) ++ RANDOM_ADDRESSES (this abc)).
Proof. compute_done. Qed.

Lemma azc_valid :
  valid (heap azc)
    (ADDRESSES (this azc) ++ RANDOM_ADDRESSES (this azc)).
Proof. compute_done. Qed.

(** The balance of an address of the wallet, and of a foreign one. *)
Lemma getBalance_of_b_and_z :
  getBalance (Some "b") abc
  = (inr 0.2%float, mkWorld (heap abc) (this abc) ["b"])
  ∧ getBalance (Some "z") abc = (inl ErrGetBalanceForeign, abc).
Proof.
  destruct (getBalance_of_address abc "b" ltac:(discriminate) abc_valid)
    as [_ Hb].
  destruct (getBalance_of_address abc "z" ltac:(discriminate) abc_valid)
    as [Hz _].
  split.
  - apply Hb. compute_done.
  - apply Hz. compute_done.
Defined.

(** The total of a wallet whose requests all succeed, and of one with
    an address the service does not know. *)
Lemma getBalance_total_abc_azc :
  getBalance None abc
  = (inr 0.6%float, mkWorld (heap abc) (this abc) ["c"; "b"; "a"])
  ∧ getBalance None azc
    = (inl (Thrown "unknown address"),
       mkWorld (heap azc) (this azc) ["c"; "z"]).
Proof.
  destruct (getBalance_total abc ltac:(discriminate) abc_valid)
    as [Hsum _].
  destruct (getBalance_total azc ltac:(discriminate) azc_valid)
    as [_ Hfail].
  split.
  - apply (Hsum [0.1; 0.2; 0.3]%float). repeat constructor.
  - apply (Hfail ["a"] "z" ["c"] [0.3%float] "unknown address");
      [reflexivity | repeat constructor | reflexivity].
Defined.

(** The same three addresses held in two orders give two totals. *)
Lemma getBalance_total_depends_on_order :
  heap abc = heap cba
  ∧ RANDOM_ADDRESSES (this abc) ≡ₚ RANDOM_ADDRESSES (this cba)
  ∧ (getBalance None abc).1 = inr 0.6%float
  ∧ (getBalance None cba).1 = inr 0.6000000000000001%float
  ∧ 0.6%float ≠ 0.6000000000000001%float.
Proof.
  split; [reflexivity|].
  split; [exact (Permutation_rev [0; 1; 2]%nat)|].
  split; [vm_compute; reflexivity|].
  split; [vm_compute; reflexivity|].
  intros E.
  assert (Heq : PrimFloat.eqb 0.6 0.6000000000000001 = true)
    by (rewrite <- E; reflexivity).
  vm_compute in Heq. discriminate.
Qed.

(** [generate] on a new wallet, and on the wallet it has made READY. *)
Lemma generate_fresh_then_again :
  generate None None 1 fresh = (inr tt, generated)
  ∧ generate None None 1 generated = (inl ErrGenerateReady, generated)
  ∧ kind ErrGenerateReady = Some StateError.
Proof.
  split.
  - apply (generate_spec fresh None None 1); [reflexivity|lia|].
    exists "lava rigid cloth",
      (Address.mk "M(lava rigid cloth)" false true "xprv(lava rigid cloth)"),
      [Address.mk "H(xprv(lava rigid cloth)/0/0)" false false
         "xprv(lava rigid cloth)/0/0"].
    split; [reflexivity|]. split; [reflexivity|]. split; [reflexivity|].
    split; [|reflexivity].
    intros [|i] d Hd; [|discriminate Hd].
    injection Hd as <-. reflexivity.
  - apply (generate_spec generated None None 1). reflexivity.
Defined.

(** A second master node is rejected at the entry of
    [importRandomAddress]; on a wallet without master node the inner
    guard is reached and evaluates to false. *)
Lemma import_second_master_node :
  importRandomAddress 1%nat None true generated
  = (inl ErrImportMasterNodeExists, generated)
  ∧ ∃ σ1, import_prepare 0%nat None true importing = (inr tt, σ1)
          ∧ MASTER_NODE_ADDRESS (this σ1) = None
          ∧ import_inner_guard σ1 = (inr false, σ1).
Proof.
  split.
  - apply (import_inner_guard_unreachable 1%nat None generated).
    now eexists.
  - eexists. split; [vm_compute; reflexivity|].
    apply (import_inner_guard_unreachable 0%nat None importing).
    vm_compute. reflexivity.
Defined.
End Runs.

(** ** More about lock and unlock *)

#[local] Instance keys_only_refl : Reflexive keys_only.
Proof. now intros σ. Qed.
#[local] Instance keys_only_trans : Transitive keys_only.
Proof. unfold keys_only. intros σ1 σ2 σ3 [H1 H1'] [H2 H2']. split; congruence. Qed.

Lemma keys_only_assign l key : preserves keys_only (assign l (set_privateKey key)).
Proof.
  apply (preserves_assign _). intros σ a E. split; [|reflexivity]. simpl.
  rewrite list_fmap_insert. apply list_insert_id.
  now rewrite list_lookup_fmap, E.
Qed.

Section Custody.
Context `{!Crypto, !RpcQuery.RemoteNode}.

Lemma cipher_at_same_this passphrase l :
  preserves same_this (cipher_at passphrase l).
Proof. unfold cipher_at. preserve_steps. apply same_this_assign. Qed.

Lemma decipher_at_same_this passphrase l :
  preserves same_this (decipher_at passphrase l).
Proof. unfold decipher_at. preserve_steps. apply same_this_assign. Qed.

Lemma cipher_at_keys_only passphrase l :
  preserves keys_only (cipher_at passphrase l).
Proof. unfold cipher_at. preserve_steps. apply keys_only_assign. Qed.

Lemma decipher_at_keys_only passphrase l :
  preserves keys_only (decipher_at passphrase l).
Proof. unfold decipher_at. preserve_steps. apply keys_only_assign. Qed.

Lemma keys_only_modifyThis f : preserves keys_only (modifyThis f).
Proof. now apply (preserves_modifyThis _). Qed.

Lemma lock_keys_only passphrase : preserves keys_only (lock passphrase).
Proof.
  unfold lock. preserve_steps;
    first [ apply cipher_at_keys_only | apply keys_only_modifyThis ].
Qed.

Lemma unlock_keys_only passphrase forStakingOnly :
  preserves keys_only (unlock passphrase forStakingOnly).
Proof.
  unfold unlock. preserve_steps;
    first [ apply decipher_at_keys_only | apply keys_only_modifyThis ].
Qed.

(** The wallet fields after the loops of [lock] and [unlock]. *)
Lemma forEach_cipher_this passphrase ls σ :
  this (forEach (cipher_at passphrase) ls σ).2 = this σ.
Proof.
  apply (preserves_forEach same_this). intros l. apply cipher_at_same_this.
Qed.

Lemma forEach_decipher_this passphrase ls σ :
  this (forEach (decipher_at passphrase) ls σ).2 = this σ.
Proof.
  apply (preserves_forEach same_this). intros l. apply decipher_at_same_this.
Qed.

(** X1: on a READY wallet without remote node, a call of [lock] that
    returns has set [IS_LOCKED], has deleted the mnemonic (the accessor
    [mnemonic] throws from then on) and has changed no other field; a
    call that throws has changed no field at all, so the wallet still
    says what it said about being locked.  Either way only private keys
    have changed in the heap, and no request was sent. *)
Theorem lock_fields passphrase σ :
  STATE (this σ) = READY →
  rpc (this σ) = None →
  keys_only σ (lock passphrase σ).2
  ∧ match lock passphrase σ with
    | (inr _, σ') =>
        this σ' = set_IS_LOCKED true (set_MNEMONIC None (this σ))
        ∧ mnemonic σ' = (inl ErrMnemonicUndefined, σ')
    | (inl _, σ') => this σ' = this σ
    end.
Proof.
  intros Hready Hlocal. split; [apply lock_keys_only|].
  rewrite (lock_local _ _ Hready Hlocal). unfold bind at 1.
  pose proof (forEach_cipher_this passphrase (held (this σ)) σ) as Hthis.
  destruct (forEach (cipher_at passphrase) (held (this σ)) σ) as [[e|[]] σ1];
    simpl in Hthis; [exact Hthis|].
  cbn. rewrite Hthis. split; [reflexivity|].
  unfold mnemonic, bind, getThis. cbn. now rewrite Hready.
Qed.

(** X2: on a READY wallet without remote node, a call of [unlock] that
    returns has cleared [IS_LOCKED] and has changed no other field (the
    mnemonic, if any, is kept); a call that throws has changed no field.
    Either way only private keys have changed in the heap. *)
Theorem unlock_fields passphrase forStakingOnly σ :
  STATE (this σ) = READY →
  rpc (this σ) = None →
  keys_only σ (unlock passphrase forStakingOnly σ).2
  ∧ match unlock passphrase forStakingOnly σ with
    | (inr _, σ') => this σ' = set_IS_LOCKED false (this σ)
    | (inl _, σ') => this σ' = this σ
    end.
Proof.
  intros Hready Hlocal. split; [apply unlock_keys_only|].
  rewrite (unlock_local _ _ _ Hready Hlocal). unfold bind at 1.
  pose proof (forEach_decipher_this passphrase (held (this σ)) σ) as Hthis.
  destruct (forEach (decipher_at passphrase) (held (this σ)) σ) as [[e|[]] σ1];
    simpl in Hthis; [exact Hthis|].
  cbn. now rewrite Hthis.
Qed.

End Custody.

(** ** The loops of lock and unlock, object by object *)

Lemma touch_at_run test op l σ a :
  heap σ !! l = Some a →
  touch_at test op l σ
  = if test a then
      match op (privateKey a) with
      | inl err => (inl (Thrown err), σ)
      | inr key =>
          (inr tt,
           mkWorld (<[l := set_privateKey key a]> (heap σ)) (this σ)
             (requests σ))
      end
    else (inr tt, σ).
Proof.
  intros Ha. unfold touch_at. unfold bind at 1. unfold deref. rewrite Ha.
  destruct (test a); [|reflexivity]. unfold bind.
  destruct (op (privateKey a)); simpl; [reflexivity|].
  unfold assign. now rewrite Ha.
Qed.

(** A loop over distinct objects that returns has replaced the key of
    every object that passes the test, once, and has left every other
    object as it was. *)
Lemma forEach_touch_inv test op ls :
  ∀ σ σ',
    NoDup ls →
    valid (heap σ) ls →
    forEach (touch_at test op) ls σ = (inr tt, σ') →
    this σ' = this σ
    ∧ requests σ' = requests σ
    ∧ (∀ l, l ∉ ls → heap σ' !! l = heap σ !! l)
    ∧ (∀ l a, l ∈ ls → heap σ !! l = Some a →
         if test a then
           ∃ key, op (privateKey a) = inr key
                  ∧ heap σ' !! l = Some (set_privateKey key a)
         else heap σ' !! l = Some a).
Proof.
  induction ls as [|l ls IH]; intros σ σ' Hnodup Hvalid Hrun.
  - injection Hrun as <-.
    split; [reflexivity|]. split; [reflexivity|]. split; [now intros|].
    intros l a Hl. now apply elem_of_nil in Hl.
  - apply NoDup_cons in Hnodup as [Hl Hnodup].
    apply Forall_cons in Hvalid as [[a Ha] Hvalid].
    simpl in Hrun. apply bind_inr_inv in Hrun as ([] & σ1 & Hstep & Hrun).
    rewrite (touch_at_run _ _ _ _ _ Ha) in Hstep.
    assert (Hother1 : ∀ l', l' ≠ l → heap σ1 !! l' = heap σ !! l').
    { intros l' Hne. destruct (test a); [|now injection Hstep as <-].
      destruct (op (privateKey a)); [discriminate|]. injection Hstep as <-.
      cbn [heap]. now apply list_lookup_insert_ne. }
    assert (Hfields : this σ1 = this σ ∧ requests σ1 = requests σ).
    { destruct (test a); [|now injection Hstep as <-].
      destruct (op (privateKey a)); [discriminate|]. now injection Hstep as <-. }
    apply IH in Hrun as (Hthis & Hrequests & Hother & Htouched);
      [|exact Hnodup|].
    + split; [now rewrite Hthis|]. split; [now rewrite Hrequests|]. split.
      * intros l' Hl'. apply not_elem_of_cons in Hl' as [Hne Hl'].
        rewrite (Hother l' Hl'). now apply Hother1.
      * intros l' a' Hl' Ha'. apply elem_of_cons in Hl' as [->|Hl'].
        -- assert (a' = a) as -> by congruence. rewrite (Hother l Hl).
           destruct (test a); [|now injection Hstep as <-].
           destruct (op (privateKey a)) as [|key]; [discriminate|].
           injection Hstep as <-. exists key. split; [reflexivity|].
           cbn [heap]. apply list_lookup_insert_eq.
           now apply lookup_lt_Some in Ha.
        -- apply Htouched; [exact Hl'|]. rewrite Hother1; [exact Ha'|].
           intros ->. contradiction.
    + apply Forall_forall. intros l' Hl'.
      rewrite Hother1 by (intros ->; contradiction).
      exact (proj1 (Forall_forall _ _) Hvalid l' Hl').
Qed.

(** A loop over distinct objects returns when [op] does so for every
    object that passes the test. *)
Lemma forEach_touch_total test op ls :
  ∀ σ,
    NoDup ls →
    valid (heap σ) ls →
    (∀ l a, l ∈ ls → heap σ !! l = Some a → test a = true →
       ∃ key, op (privateKey a) = inr key) →
    ∃ σ', forEach (touch_at test op) ls σ = (inr tt, σ').
Proof.
  induction ls as [|l ls IH]; intros σ Hnodup Hvalid Hop.
  - now eexists.
  - apply NoDup_cons in Hnodup as [Hl Hnodup].
    apply Forall_cons in Hvalid as [[a Ha] Hvalid].
    simpl. unfold bind. rewrite (touch_at_run _ _ _ _ _ Ha).
    assert (Hstep : ∃ σ1,
      (if test a then
         match op (privateKey a) with
         | inl err => (inl (Thrown err), σ)
         | inr key =>
             (inr tt,
              mkWorld (<[l := set_privateKey key a]> (heap σ)) (this σ)
                (requests σ))
         end
       else (inr tt, σ)) = (inr tt, σ1)
      ∧ ∀ l', l' ≠ l → heap σ1 !! l' = heap σ !! l').
    { destruct (test a) eqn:Htest; [|now eexists].
      destruct (Hop l a ltac:(left) Ha Htest) as [key ->].
      eexists. split; [reflexivity|]. intros l' Hne. cbn [heap].
      now apply list_lookup_insert_ne. }
    destruct Hstep as (σ1 & -> & Hother1).
    apply IH; [exact Hnodup| |].
    + apply Forall_forall. intros l' Hl'.
      rewrite Hother1 by (intros ->; contradiction).
      exact (proj1 (Forall_forall _ _) Hvalid l' Hl').
    + intros l' a' Hl' Ha' Htest.
      rewrite Hother1 in Ha' by (intros ->; contradiction).
      exact (Hop l' a' ltac:(now right) Ha' Htest).
Qed.

Section Loops.
Context `{!Crypto, !RpcQuery.RemoteNode}.

(** X4: on a READY wallet without remote node whose addresses are
    distinct objects, a call of [lock] that returns has left every
    address flagged as ciphered exactly as it was, and has replaced the
    private key of every other address by its ciphered form, leaving
    its flag false. *)
Theorem lock_by_flag passphrase σ σ' :
  STATE (this σ) = READY →
  rpc (this σ) = None →
  NoDup (held (this σ)) →
  valid (heap σ) (held (this σ)) →
  lock passphrase σ = (inr tt, σ') →
  ∀ l a, l ∈ held (this σ) → heap σ !! l = Some a →
    if isCiphered a then heap σ' !! l = Some a
    else ∃ key, cipherPrivateKey (privateKey a) passphrase = inr key
                ∧ heap σ' !! l = Some (set_privateKey key a).
Proof.
  intros Hready Hlocal Hnodup Hvalid Hrun l a Hl Ha.
  rewrite (lock_local _ _ Hready Hlocal) in Hrun.
  apply bind_inr_inv in Hrun as ([] & σ1 & Hloop & Hrun).
  injection Hrun as <-. cbn [heap].
  change (cipher_at passphrase)
    with (touch_at (λ a, negb (isCiphered a))
            (λ key, cipherPrivateKey key passphrase)) in Hloop.
  apply forEach_touch_inv in Hloop as (_ & _ & _ & Htouched);
    [|assumption..].
  specialize (Htouched l a Hl Ha). simpl in Htouched.
  now destruct (isCiphered a).
Qed.

(** X5: on the same wallets, a call of [unlock] that returns has
    replaced the private key of every address flagged as ciphered by
    its deciphered form, leaving the flag true, and has left every
    other address exactly as it was. *)
Theorem unlock_by_flag passphrase forStakingOnly σ σ' :
  STATE (this σ) = READY →
  rpc (this σ) = None →
  NoDup (held (this σ)) →
  valid (heap σ) (held (this σ)) →
  unlock passphrase forStakingOnly σ = (inr tt, σ') →
  ∀ l a, l ∈ held (this σ) → heap σ !! l = Some a →
    if isCiphered a then
      ∃ key, decipherPrivateKey (privateKey a) passphrase = inr key
             ∧ heap σ' !! l = Some (set_privateKey key a)
             ∧ isCiphered (set_privateKey key a) = true
    else heap σ' !! l = Some a.
Proof.
  intros Hready Hlocal Hnodup Hvalid Hrun l a Hl Ha.
  rewrite (unlock_local _ _ _ Hready Hlocal) in Hrun.
  apply bind_inr_inv in Hrun as ([] & σ1 & Hloop & Hrun).
  injection Hrun as <-. cbn [heap].
  change (decipher_at passphrase)
    with (touch_at isCiphered
            (λ key, decipherPrivateKey key passphrase)) in Hloop.
  apply forEach_touch_inv in Hloop as (_ & _ & _ & Htouched);
    [|assumption..].
  specialize (Htouched l a Hl Ha). simpl in Htouched.
  destruct (isCiphered a) eqn:Hflag; [|exact Htouched].
  destruct Htouched as (key & Hkey & Hl'). exists key. now repeat split.
Qed.

(** X6: [lock] does not roll back.  On a READY wallet without remote
    node whose addresses are distinct objects, when the cipher fails on
    the address [l], the call throws that error; the addresses visited
    before [l] keep the ciphered key they were given, every other
    object is as it was, and no field of the wallet has changed:
    [IS_LOCKED] is not set and the mnemonic is not deleted. *)
Theorem lock_no_rollback passphrase σ before l after a err :
  STATE (this σ) = READY →
  rpc (this σ) = None →
  NoDup (held (this σ)) →
  valid (heap σ) (held (this σ)) →
  held (this σ) = before ++ l :: after →
  (∀ l' a', l' ∈ before → heap σ !! l' = Some a' → isCiphered a' = false →
     ∃ key, cipherPrivateKey (privateKey a') passphrase = inr key) →
  heap σ !! l = Some a →
  isCiphered a = false →
  cipherPrivateKey (privateKey a) passphrase = inl err →
  ∃ σ',
    lock passphrase σ = (inl (Thrown err), σ')
    ∧ this σ' = this σ
    ∧ (∀ l' a', l' ∈ before → heap σ !! l' = Some a' →
         isCiphered a' = false →
         ∃ key, cipherPrivateKey (privateKey a') passphrase = inr key
                ∧ heap σ' !! l' = Some (set_privateKey key a'))
    ∧ (∀ l', l' ∉ before → heap σ' !! l' = heap σ !! l').
Proof.
  intros Hready Hlocal Hnodup Hvalid Hheld Hbefore Ha Hflag Herr.
  rewrite Hheld in Hnodup, Hvalid.
  apply NoDup_app in Hnodup as (Hnodup & Hapart & _).
  apply Forall_app in Hvalid as [Hvalid _].
  destruct (forEach_touch_total (λ a, negb (isCiphered a))
              (λ key, cipherPrivateKey key passphrase) before σ Hnodup Hvalid)
    as (σ1 & Hloop).
  { intros l' a' Hl' Ha' Htest. apply (Hbefore l' a' Hl' Ha').
    now destruct (isCiphered a'). }
  destruct (forEach_touch_inv _ _ _ _ _ Hnodup Hvalid Hloop)
    as (Hthis & _ & Hother & Htouched).
  assert (Hl : l ∉ before).
  { intros Hin. apply (Hapart l Hin). now left. }
  exists σ1. split; [|split; [exact Hthis|split; [|exact Hother]]].
  - rewrite (lock_local _ _ Hready Hlocal), Hheld. unfold bind at 1.
    rewrite forEach_app. unfold bind at 1.
    change (cipher_at passphrase)
      with (touch_at (λ a, negb (isCiphered a))
              (λ key, cipherPrivateKey key passphrase)).
    rewrite Hloop. cbn [forEach]. unfold bind at 1.
    rewrite (touch_at_run _ _ _ _ a) by (now rewrite (Hother l Hl)).
    now rewrite Hflag, Herr.
  - intros l' a' Hl' Ha' Hfalse.
    specialize (Htouched l' a' Hl' Ha'). simpl in Htouched.
    now rewrite Hfalse in Htouched.
Qed.
End Loops.

(** ** More about generate and reset *)

Section Generation.
Context `{!Electra}.

(** The world a call of [generate] that returns leaves. *)
Lemma generate_returns σ mnemonic mnemonicExtension chainsCount σ' :
  generate mnemonic mnemonicExtension chainsCount σ = (inr tt, σ') →
  ∃ words master chains,
    match mnemonic with
    | Some given => words = given ∧ validateMnemonic given = true
    | None => getRandomMnemonic = inr words
    end
    ∧ getMasterNodeAddressFromMnemonic words mnemonicExtension = inr master
    ∧ STATE (this σ) ≠ READY
    ∧ σ' = mkWorld
             (heap σ ++ withLabelNull master :: (withLabelNull <$> chains))
             (set_STATE READY
                (set_ADDRESSES
                   (ADDRESSES (this σ)
                    ++ seq (S (length (heap σ))) (length chains))
                   (set_MASTER_NODE_ADDRESS (Some (length (heap σ)))
                      match mnemonic with
                      | Some _ => this σ
                      | None => set_MNEMONIC (Some words) (this σ)
                      end)))
             (requests σ).
Proof.
  intros Hrun. unfold generate in Hrun.
  unfold bind at 1 in Hrun. unfold getThis in Hrun.
  destruct (decide (STATE (this σ) = READY)) as [|Hstate]; [discriminate|].
  apply bind_inr_inv in Hrun as (words & σ0 & Hwords & Hrun).
  apply generate_mnemonic_inv in Hwords.
  apply bind_inr_inv in Hrun as (master & σ1 & Hmaster & Hrun).
  unfold liftE in Hmaster.
  destruct (getMasterNodeAddressFromMnemonic words mnemonicExtension)
    as [|master'] eqn:Hderive; [discriminate|].
  injection Hmaster as -> <-.
  apply bind_inr_inv in Hrun as (l & σ2 & Halloc & Hrun).
  injection Halloc as <- <-.
  apply bind_inr_inv in Hrun as ([] & σ3 & Hset & Hrun).
  injection Hset as <-.
  apply bind_inr_inv in Hrun as ([] & σ4 & Hloop & Hrun).
  injection Hrun as <-.
  apply (generate_chains_inv _ _ _ _ _ (length (heap σ0))
           (withLabelNull master)) in Hloop
    as (chains & _ & _ & ->);
    [|reflexivity|cbn [heap]; now apply list_lookup_middle].
  exists words, master, chains.
  split; [destruct mnemonic; tauto|]. split; [exact Hderive|].
  split; [exact Hstate|].
  assert (Hσ0 : σ0 = mkWorld (heap σ)
                       match mnemonic with
                       | Some _ => this σ
                       | None => set_MNEMONIC (Some words) (this σ)
                       end (requests σ)).
  { destruct mnemonic.
    - destruct Hwords as (_ & _ & ->). now rewrite World_eta.
    - now destruct Hwords as (_ & ->). }
  rewrite Hσ0. unfold pushed. cbn.
  rewrite <- !app_assoc, length_app. simpl.
  replace (length (heap σ) + 1)%nat with (S (length (heap σ))) by lia.
  now destruct mnemonic.
Qed.

(** X7: a call of [generate] that returns has changed nothing but the
    master node, the list of HD addresses, the state and, when no
    mnemonic was given, the mnemonic.  The objects that were in the
    heap are as they were; the random addresses, [IS_LOCKED], the
    remote node and the transactions are as they were; no request was
    sent.  A mnemonic given by the caller is not stored: [MNEMONIC] is
    what it was before the call. *)
Theorem generate_frame σ mnemonic mnemonicExtension chainsCount σ' :
  generate mnemonic mnemonicExtension chainsCount σ = (inr tt, σ') →
  (∀ l a, heap σ !! l = Some a → heap σ' !! l = Some a)
  ∧ RANDOM_ADDRESSES (this σ') = RANDOM_ADDRESSES (this σ)
  ∧ IS_LOCKED (this σ') = IS_LOCKED (this σ)
  ∧ rpc (this σ') = rpc (this σ)
  ∧ TRANSACTIONS (this σ') = TRANSACTIONS (this σ)
  ∧ requests σ' = requests σ
  ∧ match mnemonic with
    | Some _ => MNEMONIC (this σ') = MNEMONIC (this σ)
    | None =>
        ∃ words, getRandomMnemonic = inr words
                 ∧ MNEMONIC (this σ') = Some words
    end.
Proof.
  intros Hrun.
  apply generate_returns in Hrun
    as (words & master & chains & Hwords & _ & _ & ->).
  cbn. split; [intros l a Ha; now apply lookup_app_l_Some|].
  destruct mnemonic; cbn; repeat split. now exists words.
Qed.

(** X8: the failures of [generate] before its loop, on a wallet that is
    not READY.  An invalid mnemonic is refused before anything is
    touched.  When the derivation of the master node fails, the call
    throws that error; the world is as it was if the mnemonic was
    given, but a random mnemonic has already been stored in [MNEMONIC],
    in a wallet that is not READY. *)
Theorem generate_early_failures σ mnemonicExtension chainsCount :
  STATE (this σ) ≠ READY →
  (∀ given, validateMnemonic given = false →
     generate (Some given) mnemonicExtension chainsCount σ
     = (inl ErrGenerateInvalidMnemonic, σ))
  ∧ (∀ given err,
       validateMnemonic given = true →
       getMasterNodeAddressFromMnemonic given mnemonicExtension = inl err →
       generate (Some given) mnemonicExtension chainsCount σ
       = (inl (Thrown err), σ))
  ∧ (∀ words err,
       getRandomMnemonic = inr words →
       getMasterNodeAddressFromMnemonic words mnemonicExtension = inl err →
       generate None mnemonicExtension chainsCount σ
       = (inl (Thrown err),
          mkWorld (heap σ) (set_MNEMONIC (Some words) (this σ)) (requests σ))).
Proof.
  intros Hstate.
  assert (Hrun : ∀ mnemonic,
    generate mnemonic mnemonicExtension chainsCount σ
    = (let* mnemonic := generate_mnemonic mnemonic in
       let* address :=
         liftE (getMasterNodeAddressFromMnemonic mnemonic mnemonicExtension) in
       let* master := alloc (withLabelNull address) in
       modifyThis (set_MASTER_NODE_ADDRESS (Some master)) >>
       generate_chains (Z.to_nat chainsCount) (-1) chainsCount >>
       modifyThis (set_STATE READY)) σ).
  { intros mnemonic. unfold generate. unfold bind at 1. unfold getThis.
    now rewrite decide_False by exact Hstate. }
  repeat split.
  - intros given Hinvalid. rewrite Hrun. unfold bind, generate_mnemonic.
    now rewrite Hinvalid.
  - intros given err Hvalid Herr. rewrite Hrun.
    unfold bind, generate_mnemonic. rewrite Hvalid. cbn. now rewrite Herr.
  - intros words err Hwords Herr. rewrite Hrun.
    unfold bind, generate_mnemonic. rewrite Hwords. cbn. now rewrite Herr.
Qed.

(** A loop stops at the first derivation that fails, with the addresses
    derived so far pushed. *)
Lemma generate_chains_fail chains :
  ∀ fuel chainIndex chainsCount σ master m err,
    MASTER_NODE_ADDRESS (this σ) = Some master →
    heap σ !! master = Some m →
    (chainIndex + 1 + Z.of_nat (length chains) < chainsCount)%Z →
    (length chains < fuel)%nat →
    (∀ (i : nat) d, chains !! i = Some d →
       getDerivedChainFromMasterNodePrivateKey
         (privateKey m) WALLET_INDEX (chainIndex + 1 + Z.of_nat i)
       = inr d) →
    getDerivedChainFromMasterNodePrivateKey
      (privateKey m) WALLET_INDEX (chainIndex + 1 + Z.of_nat (length chains))
    = inl err →
    generate_chains fuel chainIndex chainsCount σ
    = (inl (Thrown err), pushed σ chains).
Proof.
  induction chains as [|d chains IH];
    intros fuel chainIndex chainsCount σ master m err
      Hmaster Hm Hcount Hfuel Hds Herr.
  - simpl in Hcount, Hfuel, Herr. destruct fuel as [|fuel]; [lia|].
    cbn [generate_chains]. rewrite decide_True by lia.
    unfold bind. rewrite (generate_chain_run _ _ _ _ Hmaster Hm).
    rewrite Z.add_0_r in Herr. now rewrite Herr, pushed_nil.
  - simpl in Hcount, Hfuel. destruct fuel as [|fuel]; [lia|].
    cbn [generate_chains]. rewrite decide_True by lia.
    unfold bind. rewrite (generate_chain_run _ _ _ _ Hmaster Hm).
    pose proof (Hds 0%nat d eq_refl) as Hd. simpl in Hd.
    rewrite Z.add_0_r in Hd. rewrite Hd.
    rewrite (IH fuel (chainIndex + 1) chainsCount _ master m err);
      [now rewrite pushed_cons | exact Hmaster | | lia | lia | |].
    + unfold pushed. cbn [heap]. apply lookup_app_l_Some. exact Hm.
    + intros i d' Hd'. rewrite <- (Hds (S i) d' Hd'). f_equal. lia.
    + rewrite <- Herr. f_equal. simpl length. lia.
Qed.

(** X9: [generate] does not roll back.  On a wallet that is not READY,
    when the master node and the chains 0 to [k - 1] are derived and
    the derivation of chain [k < chainsCount] fails, the call throws
    that error and leaves the master node stored, the [k] chain
    addresses pushed, and the state as it was: not READY. *)
Theorem generate_no_rollback σ mnemonic mnemonicExtension chainsCount
    words master chains err :
  STATE (this σ) ≠ READY →
  match mnemonic with
  | Some given => words = given ∧ validateMnemonic given = true
  | None => getRandomMnemonic = inr words
  end →
  getMasterNodeAddressFromMnemonic words mnemonicExtension = inr master →
  (∀ (i : nat) d, chains !! i = Some d →
     getDerivedChainFromMasterNodePrivateKey
       (Address.privateKey master) WALLET_INDEX (Z.of_nat i)
     = inr d) →
  getDerivedChainFromMasterNodePrivateKey
    (Address.privateKey master) WALLET_INDEX (Z.of_nat (length chains))
  = inl err →
  (Z.of_nat (length chains) < chainsCount)%Z →
  ∃ σ',
    generate mnemonic mnemonicExtension chainsCount σ = (inl (Thrown err), σ')
    ∧ heap σ' = heap σ ++ withLabelNull master :: (withLabelNull <$> chains)
    ∧ MASTER_NODE_ADDRESS (this σ') = Some (length (heap σ))
    ∧ ADDRESSES (this σ')
      = ADDRESSES (this σ) ++ seq (S (length (heap σ))) (length chains)
    ∧ STATE (this σ') = STATE (this σ).
Proof.
  intros Hstate Hwords Hmaster Hchains Herr Hcount.
  assert (Hstep : ∃ σ0, generate_mnemonic mnemonic σ = (inr words, σ0)
                        ∧ heap σ0 = heap σ
                        ∧ ADDRESSES (this σ0) = ADDRESSES (this σ)
                        ∧ STATE (this σ0) = STATE (this σ)).
  { unfold generate_mnemonic. destruct mnemonic as [given|].
    - destruct Hwords as [-> ->]. now eexists.
    - munfold. rewrite Hwords. now eexists. }
  destruct Hstep as (σ0 & Hσ0 & Hheap & Haddresses & Hstate0).
  eexists. split.
  - unfold generate. unfold bind at 1. unfold getThis.
    rewrite decide_False by exact Hstate.
    unfold bind at 1. rewrite Hσ0.
    unfold bind at 1. rewrite Hmaster. unfold liftE, ret.
    unfold bind at 1. unfold alloc.
    unfold bind at 1. unfold modifyThis at 1.
    unfold bind at 1.
    erewrite (generate_chains_fail chains _ _ _ _ (length (heap σ0))
                (withLabelNull master) err).
    + reflexivity.
    + reflexivity.
    + cbn [heap]. now apply list_lookup_middle.
    + lia.
    + lia.
    + intros i d Hd. rewrite <- (Hchains i d Hd). f_equal; lia.
    + rewrite <- Herr. f_equal; lia.
  - cbn. rewrite Hheap, Haddresses, Hstate0, <- !app_assoc, length_app. simpl.
    now replace (length (heap σ) + 1)%nat with (S (length (heap σ))) by lia.
Qed.

(** X10: two calls of [generate] in a row never both return: whatever
    the arguments, when the first call returns the wallet is READY and
    the second call fails with [ErrGenerateReady], leaving the world
    the first call made. *)
Theorem generate_twice_fails σ mnemonic extension chainsCount
    mnemonic' extension' chainsCount' :
  match generate mnemonic extension chainsCount σ with
  | (inr _, σ1) =>
      generate mnemonic' extension' chainsCount' σ1
      = (inl ErrGenerateReady, σ1)
  | (inl e, σ1) =>
      (generate mnemonic extension chainsCount
       >> generate mnemonic' extension' chainsCount') σ
      = (inl e, σ1)
  end.
Proof.
  destruct (generate mnemonic extension chainsCount σ) as [[e|[]] σ1] eqn:Hrun.
  - unfold bind. now rewrite Hrun.
  - apply generate_returns in Hrun as (? & ? & ? & _ & _ & _ & ->).
    reflexivity.
Qed.
End Generation.

(** X11: two calls of [reset] in a row never both return: on every
    wallet the second call, or else the first, fails with
    [ErrResetEmpty]. *)
Theorem reset_twice_fails σ :
  ((reset >> reset) σ).1 = inl ErrResetEmpty
  ∧ match reset σ with
    | (inr _, σ1) => reset σ1 = (inl ErrResetEmpty, σ1)
    | (inl _, σ1) => σ1 = σ
    end.
Proof.
  unfold reset at 1 3 4. munfold. cbn.
  destruct (decide (STATE (this σ) = EMPTY)); cbn; [now split|].
  split; reflexivity.
Qed.

(** ** More about importRandomAddress *)

Section Importing.
Context `{!Crypto, !Electra}.

(** The statements before [if (isHDMasterNode)], once the entry guard is
    passed, for an object that is in the heap. *)
Lemma import_prepare_run address passphrase isHDMasterNode σ a :
  heap σ !! address = Some a →
  isHDMasterNode && bool_decide (is_Some (MASTER_NODE_ADDRESS (this σ))) = false →
  import_prepare address passphrase isHDMasterNode σ
  = match import_key a passphrase with
    | inl e => (inl e, σ)
    | inr key =>
        let deciphered :=
          if isCiphered a then set_isCiphered false (set_privateKey key a)
          else a in
        match getAddressHashFromPrivateKey key with
        | inl err =>
            (inl (Thrown err),
             mkWorld (<[address := deciphered]> (heap σ)) (this σ) (requests σ))
        | inr h =>
            (inr tt,
             mkWorld (<[address := set_hash h deciphered]> (heap σ)) (this σ)
               (requests σ))
        end
    end.
Proof.
  intros Ha Hentry. assert (Hlt := lookup_lt_Some _ _ _ Ha).
  unfold import_prepare, import_key, bind, getThis, deref, assign, liftE, ret, throw.
  rewrite Hentry, Ha.
  destruct (isCiphered a) eqn:Hflag.
  - destruct passphrase as [p|]; [|reflexivity].
    destruct (decipherPrivateKey (privateKey a) p) as [err|key]; [reflexivity|].
    rewrite Ha. cbn [heap this requests].
    rewrite !list_lookup_insert_eq by (rewrite ?length_insert; exact Hlt).
    cbn [heap this requests].
    rewrite !list_lookup_insert_eq by (rewrite ?length_insert; exact Hlt).
    cbn [privateKey set_isCiphered set_privateKey].
    destruct (getAddressHashFromPrivateKey key) as [err|h].
    + now rewrite !list_insert_insert_eq.
    + cbn [heap this requests].
      rewrite !list_lookup_insert_eq by (rewrite ?length_insert; exact Hlt).
      now rewrite !list_insert_insert_eq.
  - rewrite Ha.
    destruct (getAddressHashFromPrivateKey (privateKey a)) as [err|h].
    + cbn. rewrite list_insert_id by exact Ha. now rewrite World_eta.
    + now rewrite Ha.
Qed.

Lemma import_inner_guard_false σ :
  MASTER_NODE_ADDRESS (this σ) = None →
  import_inner_guard σ = (inr false, σ).
Proof.
  intros Hnone. unfold import_inner_guard. munfold. cbn.
  destruct (decide (STATE (this σ) = READY)) as [Hready|]; [|reflexivity].
  rewrite decide_False by (rewrite Hready; auto). now rewrite Hnone.
Qed.

(** Every path through [importRandomAddress], for an object that is in
    the heap. *)
Lemma importRandomAddress_run address passphrase isHDMasterNode σ a :
  heap σ !! address = Some a →
  importRandomAddress address passphrase isHDMasterNode σ
  = if isHDMasterNode && bool_decide (is_Some (MASTER_NODE_ADDRESS (this σ)))
    then (inl ErrImportMasterNodeExists, σ)
    else
      match import_key a passphrase with
      | inl e => (inl e, σ)
      | inr key =>
          let deciphered :=
            if isCiphered a then set_isCiphered false (set_privateKey key a)
            else a in
          match getAddressHashFromPrivateKey key with
          | inl err =>
              (inl (Thrown err),
               mkWorld (<[address := deciphered]> (heap σ)) (this σ)
                 (requests σ))
          | inr h =>
              (inr tt,
               mkWorld (<[address := imported a key h isHDMasterNode]> (heap σ))
                 (if isHDMasterNode
                  then set_MASTER_NODE_ADDRESS (Some address) (this σ)
                  else set_RANDOM_ADDRESSES
                         (RANDOM_ADDRESSES (this σ) ++ [address]) (this σ))
                 (requests σ))
          end
      end.
Proof.
  intros Ha. assert (Hlt := lookup_lt_Some _ _ _ Ha).
  destruct (isHDMasterNode
            && bool_decide (is_Some (MASTER_NODE_ADDRESS (this σ))))
    eqn:Hentry.
  { unfold importRandomAddress, import_prepare, bind, getThis.
    now rewrite Hentry. }
  assert (Hmaster : isHDMasterNode = true →
                    MASTER_NODE_ADDRESS (this σ) = None).
  { intros ->. simpl in Hentry. apply bool_decide_eq_false in Hentry.
    destruct (MASTER_NODE_ADDRESS (this σ)); [|reflexivity].
    exfalso. apply Hentry. now eexists. }
  unfold importRandomAddress. unfold bind at 1.
  rewrite (import_prepare_run _ _ _ _ _ Ha Hentry).
  destruct (import_key a passphrase) as [e|key] eqn:Hkey; [reflexivity|].
  cbn zeta.
  destruct (getAddressHashFromPrivateKey key) as [err|h]; [reflexivity|].
  assert (Hobj : ∀ m,
    set_isHD m (set_hash h
      (if isCiphered a then set_isCiphered false (set_privateKey key a) else a))
    = mkWalletAddress h false m (label a) key
    ∧ set_hash h
        (if isCiphered a then set_isCiphered false (set_privateKey key a) else a)
      = mkWalletAddress h false (isHD a) (label a) key).
  { intros m. unfold import_key in Hkey.
    destruct (isCiphered a) eqn:Hflag; [now split|].
    injection Hkey as <-. unfold set_isHD, set_hash. cbn. rewrite Hflag.
    now destruct a. }
  destruct isHDMasterNode.
  - unfold bind at 1.
    rewrite import_inner_guard_false by (cbn; now apply Hmaster).
    unfold bind, assign, modifyThis. cbn [heap this requests].
    rewrite list_lookup_insert_eq by exact Hlt.
    rewrite list_insert_insert_eq. unfold imported.
    now rewrite (proj1 (Hobj true)).
  - unfold push_RANDOM_ADDRESSES, modifyThis, imported. cbn [heap this requests].
    now rewrite (proj2 (Hobj false)).
Qed.

(** X12: an import that cannot get at the plaintext key changes
    nothing.  For an object flagged as ciphered that passes the entry
    guard, the call fails with [ErrImportNoPassphrase] when no
    passphrase is given, and with the error of the cipher library when
    deciphering fails; in both cases the world, and so the caller's
    object, is as it was. *)
Theorem import_undecipherable address passphrase isHDMasterNode σ a :
  heap σ !! address = Some a →
  isCiphered a = true →
  (isHDMasterNode = true → MASTER_NODE_ADDRESS (this σ) = None) →
  match passphrase with
  | None =>
      importRandomAddress address passphrase isHDMasterNode σ
      = (inl ErrImportNoPassphrase, σ)
  | Some p =>
      ∀ err, decipherPrivateKey (privateKey a) p = inl err →
        importRandomAddress address passphrase isHDMasterNode σ
        = (inl (Thrown err), σ)
  end.
Proof.
  intros Ha Hflag Hmaster.
  assert (Hentry : isHDMasterNode
                   && bool_decide (is_Some (MASTER_NODE_ADDRESS (this σ)))
                   = false).
  { destruct isHDMasterNode; [|reflexivity]. now rewrite Hmaster. }
  destruct passphrase as [p|].
  - intros err Herr. rewrite (importRandomAddress_run _ _ _ _ _ Ha), Hentry.
    unfold import_key. now rewrite Hflag, Herr.
  - rewrite (importRandomAddress_run _ _ _ _ _ Ha), Hentry.
    unfold import_key. now rewrite Hflag.
Qed.

(** X13: an import that fails after deciphering has already changed the
    caller's object.  When the object is flagged as ciphered, its key is
    deciphered and the computation of the hash then fails, the call
    throws that error and the wallet has not taken the address, but the
    object now holds the plaintext key and is flagged as not ciphered. *)
Theorem import_hash_failure address p isHDMasterNode σ a key err :
  heap σ !! address = Some a →
  isCiphered a = true →
  (isHDMasterNode = true → MASTER_NODE_ADDRESS (this σ) = None) →
  decipherPrivateKey (privateKey a) p = inr key →
  getAddressHashFromPrivateKey key = inl err →
  importRandomAddress address (Some p) isHDMasterNode σ
  = (inl (Thrown err),
     mkWorld
       (<[address := mkWalletAddress (hash a) false (isHD a) (label a) key]>
          (heap σ))
       (this σ) (requests σ)).
Proof.
  intros Ha Hflag Hmaster Hkey Herr.
  rewrite (importRandomAddress_run _ _ _ _ _ Ha).
  replace (isHDMasterNode
           && bool_decide (is_Some (MASTER_NODE_ADDRESS (this σ))))
    with false
    by (destruct isHDMasterNode; [now rewrite Hmaster|reflexivity]).
  unfold import_key. now rewrite Hflag, Hkey, Herr.
Qed.

(** X14: what an import that returns has done.  The entry guard was
    passed, the plaintext key was available and its hash was computed;
    the caller's object has been rewritten in place with that hash and
    that key, flagged as not ciphered, its label kept and [isHD] set on
    the master node path only; and the reference has been stored as the
    master node, or appended to the random addresses, whether or not it
    was there already.  Nothing else has changed. *)
Theorem import_returns address passphrase isHDMasterNode σ a σ' :
  heap σ !! address = Some a →
  importRandomAddress address passphrase isHDMasterNode σ = (inr tt, σ') →
  ∃ key h,
    import_key a passphrase = inr key
    ∧ getAddressHashFromPrivateKey key = inr h
    ∧ (isHDMasterNode = true → MASTER_NODE_ADDRESS (this σ) = None)
    ∧ σ' = mkWorld
             (<[address := imported a key h isHDMasterNode]> (heap σ))
             (if isHDMasterNode
              then set_MASTER_NODE_ADDRESS (Some address) (this σ)
              else set_RANDOM_ADDRESSES
                     (RANDOM_ADDRESSES (this σ) ++ [address]) (this σ))
             (requests σ).
Proof.
  intros Ha Hrun. rewrite (importRandomAddress_run _ _ _ _ _ Ha) in Hrun.
  destruct (isHDMasterNode
            && bool_decide (is_Some (MASTER_NODE_ADDRESS (this σ))))
    eqn:Hentry; [discriminate|].
  destruct (import_key a passphrase) as [|key]; [discriminate|].
  cbn zeta in Hrun.
  destruct (getAddressHashFromPrivateKey key) as [|h] eqn:Hh; [discriminate|].
  injection Hrun as <-. exists key, h. repeat split; [exact Hh|].
  intros ->. simpl in Hentry. apply bool_decide_eq_false in Hentry.
  destruct (MASTER_NODE_ADDRESS (this σ)); [|reflexivity].
  exfalso. apply Hentry. now eexists.
Qed.

End Importing.

(** ** How the methods compose *)

Lemma valid_insert (h : list WalletAddress) l x ls :
  valid h ls → valid (<[l := x]> h) ls.
Proof.
  unfold valid. intros Hvalid. eapply Forall_impl; [exact Hvalid|].
  intros l' Hl'. cbn in *.
  apply lookup_lt_is_Some. rewrite length_insert.
  now apply lookup_lt_is_Some.
Qed.

(** Writing to an object that a list does not refer to leaves the hashes
    of the list as they are. *)
Lemma hashes_insert h l x ls :
  l ∉ ls → hashes (<[l := x]> h) ls = hashes h ls.
Proof.
  unfold hashes. induction ls as [|l' ls IH]; intros Hl; [reflexivity|].
  apply not_elem_of_cons in Hl as [Hne Hl]. cbn [omap list_omap].
  rewrite list_lookup_insert_ne by auto. now rewrite IH.
Qed.

Lemma hashes_app h ls1 ls2 : hashes h (ls1 ++ ls2) = hashes h ls1 ++ hashes h ls2.
Proof. unfold hashes. apply omap_app. Qed.

Section Composition.
Context `{!Crypto, !Electra, !WebServices, !RpcQuery.RemoteNode}.

(** X16: [importRandomAddress] never ciphers what it imports and never
    looks at [IS_LOCKED].  After an import that returns on a READY
    wallet that says it is locked, the wallet still says so, the safe
    [export] returns and hands out the imported address, and the key of
    that address is the plaintext key. *)
Theorem import_into_locked_wallet address passphrase σ a σ1 :
  STATE (this σ) = READY →
  IS_LOCKED (this σ) = true →
  heap σ !! address = Some a →
  importRandomAddress address passphrase false σ = (inr tt, σ1) →
  isLocked σ1 = (inr true, σ1)
  ∧ (∃ data, export false σ1 = (inr data, σ1)
             ∧ address ∈ WalletData.randomAddresses data)
  ∧ (∃ key obj, import_key a passphrase = inr key
                ∧ heap σ1 !! address = Some obj
                ∧ isCiphered obj = false
                ∧ privateKey obj = key).
Proof.
  intros Hready Hlocked Ha Hrun. assert (Hlt := lookup_lt_Some _ _ _ Ha).
  rewrite (importRandomAddress_run _ _ _ _ _ Ha) in Hrun. cbn in Hrun.
  destruct (import_key a passphrase) as [|key]; [discriminate|].
  destruct (getAddressHashFromPrivateKey key) as [|h]; [discriminate|].
  injection Hrun as <-. split; [|split].
  - unfold isLocked. munfold. cbn. rewrite Hready, Hlocked.
    now rewrite decide_False by auto.
  - eexists. unfold export. munfold. cbn. rewrite Hready, Hlocked.
    rewrite decide_False by auto. cbn. split; [reflexivity|].
    cbn. apply elem_of_app. right. now left.
  - exists key. eexists. split; [reflexivity|]. cbn [heap].
    rewrite list_lookup_insert_eq by exact Hlt. now repeat split.
Qed.

(** [getBalance(addressHash)] on a wallet that is not EMPTY. *)
Lemma getBalance_some_run σ addressHash :
  STATE (this σ) ≠ EMPTY →
  valid (heap σ) (ADDRESSES (this σ) ++ RANDOM_ADDRESSES (this σ)) →
  getBalance (Some addressHash) σ
  = if decide (addressHash
               ∈ hashes (heap σ)
                   (ADDRESSES (this σ) ++ RANDOM_ADDRESSES (this σ)))
    then request addressHash σ
    else (inl ErrGetBalanceForeign, σ).
Proof.
  intros Hstate Hvalid.
  unfold getBalance. unfold bind at 1. unfold getThis.
  rewrite decide_False by exact Hstate.
  unfold bind at 1.
  rewrite (allAddresses_READY σ (not_EMPTY_READY _ Hstate)).
  unfold bind at 1. rewrite (filter_by_hash_spec _ _ _ Hvalid).
  pose proof (filter_by_hash_empty addressHash _ _ Hvalid) as Hempty.
  destruct (decide (length _ = 0%nat)) as [Hzero|Hsome].
  - rewrite decide_False; [reflexivity|]. now apply Hempty.
  - rewrite decide_True; [reflexivity|].
    destruct (decide (addressHash
                      ∈ hashes (heap σ)
                          (ADDRESSES (this σ) ++ RANDOM_ADDRESSES (this σ))))
      as [|Hnot]; [assumption|].
    exfalso. apply Hsome. now apply Hempty.
Qed.

(** X17: which hashes [getBalance] knows after an import.  After an
    import that returns on a READY wallet, with [h] the hash computed
    from the plaintext key: on the random path [getBalance(h)] passes
    the membership test and sends exactly one request, for [h]; and
    when the object was not held already, every hash that no held
    address had before the import, and that is not [h] on the random
    path, fails the membership test without any request.  That is the
    case of [h] itself after the import of a master node, which is not
    among the addresses [getBalance] looks at, and of the hash the
    caller gave when it is not the computed one. *)
Theorem import_then_getBalance address passphrase isHDMasterNode σ a σ1 :
  STATE (this σ) = READY →
  valid (heap σ) (ADDRESSES (this σ) ++ RANDOM_ADDRESSES (this σ)) →
  heap σ !! address = Some a →
  importRandomAddress address passphrase isHDMasterNode σ = (inr tt, σ1) →
  ∃ key h,
    import_key a passphrase = inr key
    ∧ getAddressHashFromPrivateKey key = inr h
    ∧ (isHDMasterNode = false →
       getBalance (Some h) σ1
       = (match getBalanceFor h with
          | inl err => inl (Thrown err)
          | inr balance => inr balance
          end,
          mkWorld (heap σ1) (this σ1) (requests σ1 ++ [h])))
    ∧ (address ∉ ADDRESSES (this σ) ++ RANDOM_ADDRESSES (this σ) →
       ∀ x,
         x ∉ hashes (heap σ) (ADDRESSES (this σ) ++ RANDOM_ADDRESSES (this σ)) →
         isHDMasterNode = true ∨ x ≠ h →
         getBalance (Some x) σ1 = (inl ErrGetBalanceForeign, σ1)).
Proof.
  intros Hready Hvalid Ha Hrun. assert (Hlt := lookup_lt_Some _ _ _ Ha).
  rewrite (importRandomAddress_run _ _ _ _ _ Ha) in Hrun.
  destruct (isHDMasterNode && _); [discriminate|].
  destruct (import_key a passphrase) as [|key]; [discriminate|].
  cbn zeta in Hrun.
  destruct (getAddressHashFromPrivateKey key) as [|h] eqn:Hh; [discriminate|].
  injection Hrun as <-. exists key, h. split; [reflexivity|].
  split; [exact Hh|]. split.
  - intros ->. rewrite getBalance_some_run.
    + rewrite decide_True.
      * unfold request. now destruct (getBalanceFor h).
      * cbn. unfold hashes. apply list_elem_of_omap. exists address. split.
        -- apply elem_of_app. right. apply elem_of_app. right. now left.
        -- now rewrite list_lookup_insert_eq by exact Hlt.
    + cbn. now rewrite Hready.
    + cbn. rewrite app_assoc. apply Forall_app. split.
      * now apply valid_insert.
      * apply Forall_singleton. apply lookup_lt_is_Some.
        now rewrite length_insert.
  - intros Hfresh x Hx Hpath. rewrite getBalance_some_run.
    + rewrite decide_False; [reflexivity|].
      destruct isHDMasterNode; cbn -[hashes].
      * now rewrite hashes_insert.
      * rewrite app_assoc, hashes_app, hashes_insert by exact Hfresh.
        intros Hin. apply elem_of_app in Hin as [Hin|Hin]; [contradiction|].
        unfold hashes in Hin. cbn in Hin.
        rewrite list_lookup_insert_eq in Hin by exact Hlt. cbn in Hin.
        apply list_elem_of_singleton in Hin. destruct Hpath; congruence.
    + destruct isHDMasterNode; cbn; now rewrite Hready.
    + destruct isHDMasterNode; cbn.
      * now apply valid_insert.
      * rewrite app_assoc. apply Forall_app. split.
        -- now apply valid_insert.
        -- apply Forall_singleton. apply lookup_lt_is_Some.
           now rewrite length_insert.
Qed.

(** The state and the fields after a [lock] or an [unlock] that
    returns, with or without remote node. *)
Lemma lock_returns passphrase σ σ1 :
  lock passphrase σ = (inr tt, σ1) →
  STATE (this σ) = READY
  ∧ ∃ kept, this σ1 = set_IS_LOCKED true (set_MNEMONIC kept (this σ)).
Proof.
  intros Hrun.
  assert (Hready : STATE (this σ) = READY).
  { unfold lock, bind, getThis in Hrun.
    destruct (decide (STATE (this σ) ≠ READY)) as [|Hready]; [discriminate|].
    destruct (STATE (this σ)); [|reflexivity].
    exfalso. apply Hready. discriminate. }
  split; [exact Hready|].
  destruct (rpc (this σ)) as [remote|] eqn:Hrpc.
  - unfold lock, bind, getThis in Hrun.
    rewrite decide_False in Hrun by (rewrite Hready; auto).
    rewrite Hrpc in Hrun. injection Hrun as <-.
    exists (MNEMONIC (this σ)). cbn. now destruct (this σ).
  - rewrite (lock_local _ _ Hready Hrpc) in Hrun.
    apply bind_inr_inv in Hrun as ([] & σ' & Hloop & Hrun).
    injection Hrun as <-. exists None. cbn.
    pose proof (forEach_cipher_this passphrase (held (this σ)) σ) as Hthis.
    rewrite Hloop in Hthis. cbn in Hthis. now rewrite Hthis.
Qed.

Lemma unlock_returns passphrase forStakingOnly σ σ1 :
  unlock passphrase forStakingOnly σ = (inr tt, σ1) →
  STATE (this σ) = READY ∧ this σ1 = set_IS_LOCKED false (this σ).
Proof.
  intros Hrun.
  assert (Hready : STATE (this σ) = READY).
  { unfold unlock, bind, getThis in Hrun.
    destruct (decide (STATE (this σ) ≠ READY)) as [|Hready]; [discriminate|].
    destruct (STATE (this σ)); [|reflexivity].
    exfalso. apply Hready. discriminate. }
  split; [exact Hready|].
  destruct (rpc (this σ)) as [remote|] eqn:Hrpc.
  - unfold unlock, bind, getThis in Hrun.
    rewrite decide_False in Hrun by (rewrite Hready; auto).
    rewrite Hrpc in Hrun. now injection Hrun as <-.
  - rewrite (unlock_local _ _ _ Hready Hrpc) in Hrun.
    apply bind_inr_inv in Hrun as ([] & σ' & Hloop & Hrun).
    injection Hrun as <-. cbn.
    pose proof (forEach_decipher_this passphrase (held (this σ)) σ) as Hthis.
    rewrite Hloop in Hthis. cbn in Hthis. now rewrite Hthis.
Qed.

(** X18: [export] right after [lock] and right after [unlock], on any
    wallet, with or without remote node.  After a [lock] that returns
    the safe export returns the count of HD addresses, the master node
    and the random addresses the wallet had before the call, and the
    unsafe export fails; after an [unlock] that returns it is the other
    way round. *)
Theorem export_after_lock_unlock passphrase forStakingOnly σ σ1 :
  let data :=
    {| WalletData.chainsCount := length (ADDRESSES (this σ));
       WalletData.masterNodeAddress := MASTER_NODE_ADDRESS (this σ);
       WalletData.randomAddresses := RANDOM_ADDRESSES (this σ) |} in
  (lock passphrase σ = (inr tt, σ1) →
     export false σ1 = (inr data, σ1)
     ∧ export true σ1 = (inl ErrExportLocked, σ1))
  ∧ (unlock passphrase forStakingOnly σ = (inr tt, σ1) →
     export true σ1 = (inr data, σ1)
     ∧ export false σ1 = (inl ErrExportUnlocked, σ1)).
Proof.
  intros data. subst data. split; intros Hrun.
  - apply lock_returns in Hrun as (Hready & kept & Hthis).
    unfold export, bind, getThis, ret, throw. rewrite Hthis. cbn.
    rewrite Hready. now rewrite decide_False by auto.
  - apply unlock_returns in Hrun as (Hready & Hthis).
    unfold export, bind, getThis, ret, throw. rewrite Hthis. cbn.
    rewrite Hready. now rewrite decide_False by auto.
Qed.

(** X19: the lifecycle guards.  On a wallet that is not READY the seven
    read accessors, [lock], [unlock], [export] and [getBalance] each
    throw their own state error, whatever their arguments, and leave
    the world as it is: no key is touched and no request is sent.
    Only [state] can be read. *)
Theorem needs_READY σ passphrase forStakingOnly unsafe addressHash :
  STATE (this σ) ≠ READY →
  state σ = (inr EMPTY, σ)
  ∧ addresses σ = (inl ErrAddressesNotReady, σ)
  ∧ randomAddresses σ = (inl ErrRandomAddressesNotReady, σ)
  ∧ allAddresses σ = (inl ErrAllAddressesNotReady, σ)
  ∧ isHD_ σ = (inl ErrIsHDNotReady, σ)
  ∧ isLocked σ = (inl ErrIsLockedNotReady, σ)
  ∧ mnemonic σ = (inl ErrMnemonicNotReady, σ)
  ∧ transactions σ = (inl ErrTransactionsNotReady, σ)
  ∧ lock passphrase σ = (inl ErrLockNotReady, σ)
  ∧ unlock passphrase forStakingOnly σ = (inl ErrUnlockNotReady, σ)
  ∧ export unsafe σ = (inl ErrExportNotReady, σ)
  ∧ getBalance addressHash σ = (inl ErrGetBalanceEmpty, σ).
Proof.
  intros Hstate.
  assert (Hempty : STATE (this σ) = EMPTY) by now destruct (STATE (this σ)).
  unfold mnemonic, transactions, lock, unlock, export, getBalance. munfold.
  rewrite Hempty. cbn. repeat split.
Qed.
End Composition.

(** ** The master node across calls *)

#[local] Instance keeps_master_refl : Reflexive keeps_master.
Proof. now intros σ. Qed.
#[local] Instance keeps_master_trans : Transitive keeps_master.
Proof. unfold keeps_master. intros σ1 σ2 σ3 H1 H2 H. auto. Qed.

Lemma keeps_master_assign l f : preserves keeps_master (assign l f).
Proof. apply (preserves_assign _). now intros. Qed.

Lemma keeps_master_modifyThis f :
  (∀ w, is_Some (MASTER_NODE_ADDRESS w) → is_Some (MASTER_NODE_ADDRESS (f w))) →
  preserves keeps_master (modifyThis f).
Proof.
  intros Hf. apply (preserves_modifyThis _). intros σ Hσ. now apply Hf.
Qed.

Lemma keeps_master_alloc a : preserves keeps_master (alloc a).
Proof. now intros σ. Qed.

(** Settles the steps that write to an object or to a field other than
    the master node. *)
Ltac keeps_master_steps :=
  preserve_steps;
  first [ apply keeps_master_assign
        | apply keeps_master_alloc
        | apply keeps_master_modifyThis; intros w; now destruct w
        | apply keeps_master_modifyThis; intros w _; now eexists
        | idtac ].

Section Master.
Context `{!Crypto, !Electra, !WebServices, !RpcQuery.RemoteNode}.

Lemma generate_chains_keeps_master fuel :
  ∀ chainIndex chainsCount,
    preserves keeps_master (generate_chains fuel chainIndex chainsCount).
Proof.
  induction fuel as [|fuel IH]; intros chainIndex chainsCount;
    cbn [generate_chains].
  - keeps_master_steps.
  - unfold generate_chain, push_ADDRESSES. keeps_master_steps. apply IH.
Qed.

Lemma generate_keeps_master mnemonic mnemonicExtension chainsCount :
  preserves keeps_master (generate mnemonic mnemonicExtension chainsCount).
Proof.
  unfold generate, generate_mnemonic. keeps_master_steps.
  apply generate_chains_keeps_master.
Qed.

Lemma lock_keeps_master passphrase : preserves keeps_master (lock passphrase).
Proof. unfold lock, cipher_at. keeps_master_steps. Qed.

Lemma unlock_keeps_master passphrase forStakingOnly :
  preserves keeps_master (unlock passphrase forStakingOnly).
Proof. unfold unlock, decipher_at. keeps_master_steps. Qed.

Lemma export_keeps_master unsafe : preserves keeps_master (export unsafe).
Proof. unfold export. keeps_master_steps. Qed.

Lemma importRandomAddress_keeps_master address passphrase isHDMasterNode :
  preserves keeps_master
    (importRandomAddress address passphrase isHDMasterNode).
Proof.
  unfold importRandomAddress, import_prepare, import_inner_guard, state, isHD_,
    push_RANDOM_ADDRESSES.
  keeps_master_steps.
Qed.

Lemma request_keeps_master h : preserves keeps_master (request h).
Proof. intros σ. unfold request. now destruct (getBalanceFor h). Qed.

Lemma filter_by_hash_keeps_master addressHash ls :
  preserves keeps_master (filter_by_hash addressHash ls).
Proof.
  induction ls as [|l ls IH]; cbn [filter_by_hash]; keeps_master_steps.
  apply IH.
Qed.

Lemma allAddresses_keeps_master : preserves keeps_master allAddresses.
Proof.
  unfold allAddresses, addresses, randomAddresses. keeps_master_steps.
Qed.

Lemma getBalance_loop_keeps_master index :
  ∀ balanceTotal,
    preserves keeps_master (getBalance_loop index balanceTotal).
Proof.
  induction index as [|index IH]; intros balanceTotal;
    cbn [getBalance_loop]; keeps_master_steps;
    first [apply allAddresses_keeps_master | apply request_keeps_master
          | apply IH].
Qed.

Lemma getBalance_keeps_master addressHash :
  preserves keeps_master (getBalance addressHash).
Proof.
  unfold getBalance. keeps_master_steps;
    first [ apply allAddresses_keeps_master | apply request_keeps_master
          | apply filter_by_hash_keeps_master
          | apply getBalance_loop_keeps_master ].
Qed.

Lemma after_keeps_master c σ :
  c ≠ CallReset → keeps_master σ (after c σ).
Proof.
  intros Hc. destruct c; cbn [after].
  - apply generate_keeps_master.
  - apply lock_keeps_master.
  - apply unlock_keeps_master.
  - apply export_keeps_master.
  - apply importRandomAddress_keeps_master.
  - contradiction.
  - apply getBalance_keeps_master.
  - apply keeps_master_alloc.
  - now intros ?.
Qed.

Lemma after_all_keeps_master calls :
  ∀ σ, CallReset ∉ calls → keeps_master σ (after_all calls σ).
Proof.
  induction calls as [|c calls IH]; intros σ Hcalls; [reflexivity|].
  apply not_elem_of_cons in Hcalls as [Hc Hcalls].
  cbn [after_all foldl]. transitivity (after c σ).
  - exact (after_keeps_master c σ ltac:(congruence)).
  - exact (IH (after c σ) Hcalls).
Qed.

(** X15: a master node that is set bars the import of another one
    until [reset].  Once a call of [importRandomAddress] with
    [isHDMasterNode = true] has returned, and likewise once a call of
    [generate] has returned, every call with [isHDMasterNode = true]
    is rejected at the entry and leaves the world as it is, for every
    object and passphrase and after any sequence of calls of
    [generate], [lock], [unlock], [export], [importRandomAddress] and
    [getBalance], returning or throwing, and of writes of the caller
    to address objects, as long as [reset] is not among them.  (A call
    of [generate] on a wallet that is still EMPTY replaces the master
    node; it does not remove it.)  After a [reset] that returns, the
    import of an unciphered object whose hash can be computed returns
    again and sets the master node. *)
Theorem master_node_once σ σ1 calls address' passphrase' :
  (∃ address passphrase a,
     heap σ !! address = Some a
     ∧ importRandomAddress address passphrase true σ = (inr tt, σ1))
  ∨ (∃ mnemonic extension chainsCount,
       generate mnemonic extension chainsCount σ = (inr tt, σ1)) →
  CallReset ∉ calls →
  importRandomAddress address' passphrase' true (after_all calls σ1)
  = (inl ErrImportMasterNodeExists, after_all calls σ1)
  ∧ ∀ σ2 a h,
      reset (after_all calls σ1) = (inr tt, σ2) →
      heap σ2 !! address' = Some a →
      isCiphered a = false →
      getAddressHashFromPrivateKey (privateKey a) = inr h →
      ∃ σ3,
        importRandomAddress address' passphrase' true σ2 = (inr tt, σ3)
        ∧ MASTER_NODE_ADDRESS (this σ3) = Some address'.
Proof.
  intros Hset Hcalls.
  assert (Hmaster : is_Some (MASTER_NODE_ADDRESS (this σ1))).
  { destruct Hset as [(address & passphrase & a & Ha & Hrun)
                     |(mnemonic & extension & chainsCount & Hrun)].
    - rewrite (importRandomAddress_run _ _ _ _ _ Ha) in Hrun.
      destruct (true && _); [discriminate|].
      destruct (import_key a passphrase); [discriminate|]. cbn zeta in Hrun.
      destruct (getAddressHashFromPrivateKey _); [discriminate|].
      injection Hrun as <-. now eexists.
    - apply generate_returns in Hrun as (? & ? & ? & _ & _ & _ & ->).
      now eexists. }
  apply (after_all_keeps_master calls σ1 Hcalls) in Hmaster
    as [master Hmaster].
  split.
  - unfold importRandomAddress, import_prepare. munfold. simpl.
    now rewrite Hmaster.
  - intros σ2 a h Hreset Ha Hflag Hh.
    assert (Hnone : MASTER_NODE_ADDRESS (this σ2) = None).
    { unfold reset in Hreset. munfold.
      destruct (decide (STATE (this (after_all calls σ1)) = EMPTY));
        [discriminate|].
      now injection Hreset as <-. }
    rewrite (importRandomAddress_run _ _ _ _ _ Ha), Hnone.
    unfold import_key. rewrite Hflag. cbn. rewrite Hh.
    eexists. split; reflexivity.
Qed.
End Master.

(** ** Two calls of lock, or of unlock, in a row *)





Section Twice.
Context `{!Crypto, !RpcQuery.RemoteNode}.


End Twice.


(** ** getStakingInfo and the query helper *)

(** Case analysis on the outcomes of a request. *)
Ltac outcome_cases :=
  repeat match goal with
    | |- ∀ _, _ => intro
    | H : ∃ _, _ |- _ => destruct H
    | H : _ ∧ _ |- _ => destruct H
    | H : _ ∨ _ |- _ => destruct H
    end;
  simplify_eq/=; eauto 10.

Section QueryFacts.
Import RpcQuery.
Context `{!RemoteNode}.

(** [query], outcome by outcome of the request. *)
Lemma query_run rpc T params :
  query rpc T params
  = match post T (uri rpc)
            {| jsonrpc := "2.0"; method := T; params := params |}
            {| headers := [("Content-Type", "application/json")];
               config_auth := Some (auth rpc) |} with
    | Rejected Undefined => throws TypeError
    | Rejected Null =>
        throws (Error "libs/rpc: We did't get the expected RPC response.")
    | Rejected (Value (ErrorString text)) => throws (Error ("libs/rpc: " +:+ text))
    | Rejected (Value (ErrorObject text response)) =>
        match response with
        | Undefined => throws (Error ("libs/rpc: " +:+ template text))
        | Null => throws TypeError
        | Value response =>
            match error_data response with
            | Undefined => throws (Error ("libs/rpc: " +:+ template text))
            | Null => throws TypeError
            | Value d =>
                match error d with
                | Undefined | Null =>
                    throws (Error ("libs/rpc: " +:+ template text))
                | Value e =>
                    match RPC_ERRORS_TRANSLATION (String_of_code (code e)) with
                    | Some key => throws (EJError key)
                    | None =>
                        throws (Error ("libs/rpc: " +:+ template (message e)))
                    end
                end
            end
        end
    | Fulfilled Undefined =>
        throws (Error "libs/rpc: We did't get the expected RPC response.")
    | Fulfilled Null => throws TypeError
    | Fulfilled (Value res) =>
        match data res with
        | Undefined =>
            throws (Error "libs/rpc: We did't get the expected RPC response.")
        | Null => throws TypeError
        | Value d => Fulfilled (result d)
        end
    end.
Proof.
  unfold query, CONFIG_DEFAULT. cbn [headers].
  destruct (post T (uri rpc) _ _) as [[| |[text|text response]]|[| |res]];
    reflexivity.
Qed.

(** X21: the outcomes of [query], read off the request it posts: to
    the address of the instance, with the method and the parameters in
    a JSON-RPC 2.0 body, the JSON content type and the credentials of
    the instance.  It returns exactly when the request is fulfilled
    with a response whose data are an object, and then returns the
    result of the data, which may be [undefined] or [null].  It throws
    an [EJError] exactly when the request is rejected with an object
    whose response has data that carry an error, and the table
    translates the code of that error; the key is the translation.  It
    throws a [TypeError] exactly when a property is read on [undefined]
    or [null]: the reason of the rejection is [undefined], or the
    response or its data are [null], or the fulfilled response or its
    data are [null].  Every other failure is an [Error] whose message
    starts with "libs/rpc: ". *)
Theorem query_outcomes rpc T params :
  let outcome :=
    post T (uri rpc)
      {| jsonrpc := "2.0"; method := T; params := params |}
      {| headers := [("Content-Type", "application/json")];
         config_auth := Some (auth rpc) |} in
  (∀ r,
     query rpc T params = Fulfilled r
     ↔ ∃ res d,
         outcome = Fulfilled (Value res) ∧ data res = Value d ∧ result d = r)
  ∧ (∀ key,
       query rpc T params = throws (EJError key)
       ↔ ∃ text response d e,
           outcome = Rejected (Value (ErrorObject text (Value response)))
           ∧ error_data response = Value d
           ∧ error d = Value e
           ∧ RPC_ERRORS_TRANSLATION (String_of_code (code e)) = Some key)
  ∧ (query rpc T params = throws TypeError
     ↔ outcome = Rejected Undefined
       ∨ (∃ text, outcome = Rejected (Value (ErrorObject text Null)))
       ∨ (∃ text response,
            outcome = Rejected (Value (ErrorObject text (Value response)))
            ∧ error_data response = Null)
       ∨ outcome = Fulfilled Null
       ∨ (∃ res, outcome = Fulfilled (Value res) ∧ data res = Null))
  ∧ (∀ reason,
       query rpc T params = Rejected reason →
       reason = Value TypeError
       ∨ (∃ key, reason = Value (EJError key))
       ∨ (∃ text, reason = Value (Error text)
                  ∧ String.prefix "libs/rpc: " text = true)).
Proof.
  cbv zeta. rewrite query_run. unfold throws.
  destruct (post T (uri rpc) _ _)
    as [[| |[text|text [| |[[| |[[| |e]]]]]]]|[| |[[| |d]]]]; cbn.
  all: try destruct (RPC_ERRORS_TRANSLATION (String_of_code (code e)))
         as [translated|] eqn:Htable.
  all: repeat split.
  all: try (intros reason [= <-]; right; right; eexists; split; [reflexivity|];
            first [apply prefix_append | reflexivity]).
  all: outcome_cases.
Qed.

(** [query] never rejects with [undefined] or [null]. *)
Lemma query_rejects_value rpc T params reason :
  query rpc T params = Rejected reason → ∃ e, reason = Value e.
Proof.
  rewrite query_run. unfold throws. intros Hq.
  repeat case_match; simplify_eq; now eexists.
Qed.
End QueryFacts.

Section StakingFacts.
Context `{!RpcQuery.RemoteNode}.

(** X20: the outcomes of [getStakingInfo].  The method reads no field
    of the wallet but [rpc]: it has no lifecycle guard, and two wallets
    bound to the same node get the same answer, whatever their state.
    Without remote node it fails with a [TypeError].  With a remote
    node it returns exactly when [query] returns an object, and then
    returns the three figures of that object under their wallet names;
    when [query] returns [undefined], for data that hold no result, it
    throws [null], the value of [err]; when [query] returns [null] it
    fails with a [TypeError]; and what [query] throws is thrown
    again. *)
Theorem getStakingInfo_outcomes w :
  (∀ w', rpc w' = rpc w → getStakingInfo w' = getStakingInfo w)
  ∧ (rpc w = None → getStakingInfo w = RpcQuery.throws RpcQuery.TypeError)
  ∧ (∀ remote, rpc w = Some remote →
       let promise := RpcQuery.query remote RpcQuery.getstakinginfo None in
       (∀ info,
          getStakingInfo w = Fulfilled info
          ↔ ∃ res,
              promise = Fulfilled (Value res)
              ∧ info
                = Value
                    {| WalletStakingInfo.networkWeight :=
                         StakingInfo.netstakeweight res;
                       WalletStakingInfo.nextRewardIn :=
                         StakingInfo.expectedtime res;
                       WalletStakingInfo.weight := StakingInfo.weight res |})
       ∧ (getStakingInfo w = Rejected Null ↔ promise = Fulfilled Undefined)
       ∧ (promise = Fulfilled Null →
          getStakingInfo w = RpcQuery.throws RpcQuery.TypeError)
       ∧ (∀ reason, promise = Rejected reason →
            getStakingInfo w = Rejected reason)).
Proof.
  split; [|split].
  - intros w' Hrpc. unfold getStakingInfo. now rewrite Hrpc.
  - intros Hrpc. unfold getStakingInfo. now rewrite Hrpc.
  - intros remote Hrpc. cbv zeta. unfold getStakingInfo. rewrite Hrpc.
    unfold RpcQuery.getStakingInfo, RpcQuery.this_query.
    destruct (RpcQuery.query remote RpcQuery.getstakinginfo None)
      as [reason|[| |res]] eqn:Hq.
    + destruct (query_rejects_value _ _ _ _ Hq) as [e ->]. cbn.
      repeat split; outcome_cases.
    + cbn. repeat split; outcome_cases.
    + cbn. repeat split; outcome_cases.
    + cbn. repeat split; outcome_cases.
Qed.
End StakingFacts.


(** ** Further runs on concrete wallets *)

Section MoreRuns.
#[local] Existing Instances
  Sample.crypto Sample.electra Sample.webServices Sample.remoteNode.
Import Sample.

(** [lock("pw")] on the generated wallet: the mnemonic is gone. *)
Lemma lock_fields_generated :
  MNEMONIC (this generated) = Some "lava rigid cloth"
  ∧ keys_only generated (lock "pw" generated).2
  ∧ this (lock "pw" generated).2
    = set_IS_LOCKED true (set_MNEMONIC None (this generated))
  ∧ mnemonic (lock "pw" generated).2
    = (inl ErrMnemonicUndefined, (lock "pw" generated).2).
Proof.
  split; [reflexivity|].
  pose proof (lock_fields "pw" generated eq_refl eq_refl) as [Hkeys Hfields].
  split; [exact Hkeys|]. rewrite lock_generated in *. exact Hfields.
Defined.

(** [unlock("pw")] on the generated wallet keeps the mnemonic. *)
Lemma unlock_fields_generated :
  keys_only generated (unlock "pw" true generated).2
  ∧ this (unlock "pw" true generated).2 = set_IS_LOCKED false (this generated)
  ∧ MNEMONIC (this (unlock "pw" true generated).2) = Some "lava rigid cloth".
Proof.
  pose proof (unlock_fields "pw" true generated eq_refl eq_refl)
    as [Hkeys Hfields].
  split; [exact Hkeys|].
  assert (Hrun : unlock "pw" true generated
                 = (inr tt, (unlock "pw" true generated).2))
    by (vm_compute; reflexivity).
  rewrite Hrun in Hfields. split; [exact Hfields|].
  cbn [snd]. now rewrite Hfields.
Defined.


(** [lock("pw")] on a wallet with one address flagged as ciphered. *)
Lemma lock_by_flag_mixed :
  heap (lock "pw" Strict.mixed).2 !! 0%nat
  = Some (mkWalletAddress "a" true false None "pw:k1")
  ∧ ∃ key, cipherPrivateKey "k2" "pw" = inr key
           ∧ heap (lock "pw" Strict.mixed).2 !! 1%nat
             = Some (set_privateKey key (plain "b" "k2")).
Proof.
  assert (Hrun : lock "pw" Strict.mixed
                 = (inr tt, (lock "pw" Strict.mixed).2))
    by (vm_compute; reflexivity).
  pose proof (lock_by_flag "pw" Strict.mixed _ eq_refl eq_refl
                ltac:(compute_done) ltac:(compute_done) Hrun) as Hflag.
  split.
  - exact (Hflag 0%nat _ ltac:(compute_done) eq_refl).
  - exact (Hflag 1%nat _ ltac:(compute_done) eq_refl).
Defined.

(** [unlock("pw")] on the same wallet. *)
Lemma unlock_by_flag_mixed :
  (∃ key, decipherPrivateKey "pw:k1" "pw" = inr key
          ∧ heap (unlock "pw" true Strict.mixed).2 !! 0%nat
            = Some (set_privateKey key
                      (mkWalletAddress "a" true false None "pw:k1"))
          ∧ isCiphered
              (set_privateKey key
                 (mkWalletAddress "a" true false None "pw:k1")) = true)
  ∧ heap (unlock "pw" true Strict.mixed).2 !! 1%nat = Some (plain "b" "k2").
Proof.
  assert (Hrun : unlock "pw" true Strict.mixed
                 = (inr tt, (unlock "pw" true Strict.mixed).2))
    by (vm_compute; reflexivity).
  pose proof (unlock_by_flag "pw" true Strict.mixed _ eq_refl eq_refl
                ltac:(compute_done) ltac:(compute_done) Hrun) as Hflag.
  split.
  - exact (Hflag 0%nat _ ltac:(compute_done) eq_refl).
  - exact (Hflag 1%nat _ ltac:(compute_done) eq_refl).
Defined.

(** [lock("pw")] with the strict cipher on a wallet whose second key is
    empty: the first key stays ciphered, the wallet is not locked. *)
Lemma lock_no_rollback_gap :
  ∃ σ',
    @lock Strict.crypto remoteNode "pw" Strict.gap
    = (inl (Thrown "empty key"), σ')
    ∧ this σ' = this Strict.gap
    ∧ (∀ l' a', l' ∈ [0%nat] → heap Strict.gap !! l' = Some a' →
         isCiphered a' = false →
         ∃ key, @cipherPrivateKey Strict.crypto (privateKey a') "pw" = inr key
                ∧ heap σ' !! l' = Some (set_privateKey key a'))
    ∧ (∀ l', l' ∉ [0%nat] → heap σ' !! l' = heap Strict.gap !! l').
Proof.
  apply (@lock_no_rollback Strict.crypto remoteNode "pw" Strict.gap
           [0%nat] 1%nat [2%nat] (plain "b" "") "empty key");
    try reflexivity; try compute_done.
  intros l' a' Hl' Ha' _. apply list_elem_of_singleton in Hl' as ->.
  injection Ha' as <-. now eexists.
Defined.

(** [generate("abc", undefined, 2)] on a wallet that is EMPTY after an
    import: the imported address and the other fields stay, and the
    given mnemonic is not stored. *)
Lemma generate_frame_imported_only :
  let σ' := (generate (Some "abc") None 2 Remote.imported_only).2 in
  generate (Some "abc") None 2 Remote.imported_only = (inr tt, σ')
  ∧ heap σ' !! 0%nat = Some (plain "H(secret)" "secret")
  ∧ RANDOM_ADDRESSES (this σ') = [0%nat]
  ∧ IS_LOCKED (this σ') = false
  ∧ MNEMONIC (this σ') = None.
Proof.
  intros σ'.
  assert (Hrun : generate (Some "abc") None 2 Remote.imported_only
                 = (inr tt, σ')) by (vm_compute; reflexivity).
  destruct (generate_frame _ _ _ _ _ Hrun)
    as (Hheap & Hrandom & Hlocked & _ & _ & _ & Hmnemonic).
  split; [exact Hrun|]. split; [exact (Hheap 0%nat _ eq_refl)|].
  split; [exact Hrandom|]. split; [exact Hlocked|exact Hmnemonic].
Defined.

(** The early failures of [generate] with the failing library and an
    empty extension. *)
Lemma generate_early_failures_fresh :
  @generate Failing.electra (Some "") (Some "") 3 fresh
  = (inl ErrGenerateInvalidMnemonic, fresh)
  ∧ @generate Failing.electra (Some "abc") (Some "") 3 fresh
    = (inl (Thrown "empty extension"), fresh)
  ∧ @generate Failing.electra None (Some "") 3 fresh
    = (inl (Thrown "empty extension"),
       mkWorld [] (set_MNEMONIC (Some "lava rigid cloth") (this fresh)) []).
Proof.
  destruct (@generate_early_failures Failing.electra fresh (Some "") 3
              ltac:(discriminate)) as (Hinvalid & Hgiven & Hrandom).
  split; [exact (Hinvalid "" eq_refl)|].
  split; [exact (Hgiven "abc" "empty extension" eq_refl eq_refl)|].
  exact (Hrandom "lava rigid cloth" "empty extension" eq_refl eq_refl).
Defined.

(** [generate(undefined, undefined, 3)] with the failing library: the
    third chain fails, the master node and two chains stay, and the
    wallet is still EMPTY. *)
Lemma generate_no_rollback_fresh :
  ∃ σ',
    @generate Failing.electra None None 3 fresh
    = (inl (Thrown "no such chain"), σ')
    ∧ length (heap σ') = 3%nat
    ∧ MASTER_NODE_ADDRESS (this σ') = Some 0%nat
    ∧ ADDRESSES (this σ') = [1; 2]%nat
    ∧ STATE (this σ') = EMPTY.
Proof.
  destruct (@generate_no_rollback Failing.electra fresh None None 3
              "lava rigid cloth"
              (Address.mk "M(lava rigid cloth)" false true
                 "xprv(lava rigid cloth)")
              [ Address.mk "H(xprv(lava rigid cloth)/0/0)" false false
                  "xprv(lava rigid cloth)/0/0";
                Address.mk "H(xprv(lava rigid cloth)/0/1)" false false
                  "xprv(lava rigid cloth)/0/1" ]
              "no such chain")
    as (σ' & Hrun & Hheap & Hmaster & Haddresses & Hstate);
    [discriminate | reflexivity | reflexivity | | reflexivity | reflexivity |].
  - intros [|[|i]] d Hd; simpl in Hd; [now injection Hd as <-..|].
    now rewrite lookup_nil in Hd.
  - exists σ'. split; [exact Hrun|]. split; [now rewrite Hheap|].
    now repeat split.
Defined.

(** Imports of an object flagged as ciphered without passphrase and
    with a wrong one. *)
Lemma import_undecipherable_ciphered :
  importRandomAddress 0%nat None false Imports.ciphered
  = (inl ErrImportNoPassphrase, Imports.ciphered)
  ∧ importRandomAddress 0%nat (Some "wrong") false Imports.ciphered
    = (inl (Thrown "wrong passphrase"), Imports.ciphered).
Proof.
  split.
  - exact (import_undecipherable 0%nat None false Imports.ciphered _
             eq_refl eq_refl ltac:(discriminate)).
  - exact (import_undecipherable 0%nat (Some "wrong") false Imports.ciphered _
             eq_refl eq_refl ltac:(discriminate) "wrong passphrase" eq_refl).
Defined.

(** An import that fails on the hash has deciphered the caller's
    object. *)
Lemma import_hash_failure_empty_key :
  heap Imports.empty_key !! 0%nat
  = Some (mkWalletAddress "?" true false None "pw:")
  ∧ @importRandomAddress crypto Failing.electra 0%nat (Some "pw") false
      Imports.empty_key
    = (inl (Thrown "empty key"),
       mkWorld [mkWalletAddress "?" false false None ""]
         (this Imports.empty_key) []).
Proof.
  split; [reflexivity|].
  exact (@import_hash_failure crypto Failing.electra 0%nat "pw" false
           Imports.empty_key _ "" "empty key"
           eq_refl eq_refl ltac:(discriminate) eq_refl eq_refl).
Defined.

(** An import that returns, of an object flagged as ciphered, into a
    new wallet. *)
Lemma import_returns_ciphered :
  ∃ key h,
    import_key (mkWalletAddress "?" true false (Some "savings") "pw:secret")
      (Some "pw") = inr key
    ∧ getAddressHashFromPrivateKey key = inr h
    ∧ (importRandomAddress 0%nat (Some "pw") false Imports.ciphered).2
      = mkWorld [mkWalletAddress h false false (Some "savings") key]
          (set_RANDOM_ADDRESSES [0%nat] (this Imports.ciphered)) [].
Proof.
  assert (Hrun : importRandomAddress 0%nat (Some "pw") false Imports.ciphered
                 = (inr tt,
                    (importRandomAddress 0%nat (Some "pw") false
                       Imports.ciphered).2))
    by (vm_compute; reflexivity).
  destruct (import_returns 0%nat (Some "pw") false Imports.ciphered _ _
              eq_refl Hrun) as (key & h & Hkey & Hh & _ & Hworld).
  exists key, h. split; [exact Hkey|]. split; [exact Hh|]. exact Hworld.
Defined.

(** No second master node on the generated wallet, whatever is called
    on it short of [reset]; after [reset] the master node of the caller
    is taken. *)
Lemma master_node_once_generated :
  let calls :=
    [CallLock "pw"; CallUnlock "pw" true; CallGenerate None None 1;
     CallerNew (plain "?" "secret"); CallImportRandomAddress 2%nat None false;
     CallGetBalance None; CallExport true] in
  importRandomAddress 2%nat None true (after_all calls generated)
  = (inl ErrImportMasterNodeExists, after_all calls generated)
  ∧ ∃ σ3,
      importRandomAddress 2%nat None true
        (reset (after_all calls generated)).2
      = (inr tt, σ3)
      ∧ MASTER_NODE_ADDRESS (this σ3) = Some 2%nat.
Proof.
  intros calls.
  destruct (master_node_once fresh generated calls 2%nat None) as [Hbarred Hreset].
  - right. exists None, None, 1. exact generate_fresh.
  - intros Hin.
    repeat (apply elem_of_cons in Hin as [Hin|Hin]; [discriminate|]).
    now apply elem_of_nil in Hin.
  - split; [exact Hbarred|].
    apply (Hreset _ (mkWalletAddress "H(secret)" false false None "secret")
             "H(secret)");
      reflexivity.
Defined.

(** An import into the locked wallet, then the safe export. *)
Lemma import_into_locked_sample :
  let σ1 := (importRandomAddress 2%nat None false Imports.into_locked).2 in
  isLocked σ1 = (inr true, σ1)
  ∧ (∃ data, export false σ1 = (inr data, σ1)
             ∧ 2%nat ∈ WalletData.randomAddresses data)
  ∧ (∃ key obj, import_key (plain "?" "secret") None = inr key
                ∧ heap σ1 !! 2%nat = Some obj
                ∧ isCiphered obj = false
                ∧ privateKey obj = key).
Proof.
  intros σ1.
  apply (import_into_locked_wallet 2%nat None Imports.into_locked
           (plain "?" "secret") σ1 eq_refl eq_refl eq_refl).
  vm_compute. reflexivity.
Defined.

(** An import into the generated wallet, then the balance for the
    computed hash and for the hash the caller gave; the import of a
    master node into a wallet bound to a remote node, then the balance
    for the computed hash. *)
Lemma import_then_getBalance_sample :
  let σ1 := (importRandomAddress 2%nat None false Imports.into_generated).2 in
  let σ2 := (importRandomAddress 1%nat None true Remote.importing).2 in
  getBalance (Some "H(secret)") σ1
  = (inl (Thrown "unknown address"),
     mkWorld (heap σ1) (this σ1) ["H(secret)"])
  ∧ getBalance (Some "?") σ1 = (inl ErrGetBalanceForeign, σ1)
  ∧ importRandomAddress 1%nat None true Remote.importing = (inr tt, σ2)
  ∧ getBalance (Some "H(secret)") σ2 = (inl ErrGetBalanceForeign, σ2).
Proof.
  intros σ1 σ2.
  destruct (import_then_getBalance 2%nat None false Imports.into_generated
              (plain "?" "secret") σ1 eq_refl ltac:(compute_done) eq_refl
              ltac:(vm_compute; reflexivity))
    as (key & h & Hkey & Hh & Hknown & Hforeign).
  destruct (import_then_getBalance 1%nat None true Remote.importing
              (plain "?" "secret") σ2 eq_refl ltac:(compute_done) eq_refl
              ltac:(vm_compute; reflexivity))
    as (key' & h' & Hkey' & Hh' & _ & Hforeign').
  injection Hkey as <-. injection Hh as <-.
  injection Hkey' as <-. injection Hh' as <-.
  split; [exact (Hknown eq_refl)|]. split; [|split].
  - apply Hforeign; [compute_done|compute_done|]. right. discriminate.
  - reflexivity.
  - apply Hforeign'; [compute_done|compute_done|]. now left.
Defined.

(** [export] after [lock("pw")] on the generated wallet, and after
    [unlock("pw")] on the locked one. *)
Lemma export_after_lock_unlock_generated :
  (export false locked
   = (inr {| WalletData.chainsCount := 1;
             WalletData.masterNodeAddress := Some 0%nat;
             WalletData.randomAddresses := [] |}, locked)
   ∧ export true locked = (inl ErrExportLocked, locked))
  ∧ ∃ σ1, unlock "pw" true locked = (inr tt, σ1)
          ∧ export false σ1 = (inl ErrExportUnlocked, σ1).
Proof.
  split.
  - exact (proj1 (export_after_lock_unlock "pw" true generated locked)
             lock_generated).
  - eexists. split; [vm_compute; reflexivity|].
    refine (proj2 (proj2 (export_after_lock_unlock "pw" true locked _) _)).
    vm_compute. reflexivity.
Defined.

(** Nothing but [state] can be used on a new wallet. *)
Lemma needs_READY_fresh :
  state fresh = (inr EMPTY, fresh)
  ∧ isLocked fresh = (inl ErrIsLockedNotReady, fresh)
  ∧ lock "pw" fresh = (inl ErrLockNotReady, fresh)
  ∧ export false fresh = (inl ErrExportNotReady, fresh)
  ∧ getBalance None fresh = (inl ErrGetBalanceEmpty, fresh).
Proof.
  destruct (needs_READY fresh "pw" true false None ltac:(discriminate))
    as (Hstate & _ & _ & _ & _ & Hlocked & _ & _ & Hlock & _ & Hexport
        & Hbalance).
  now repeat split.
Defined.



End MoreRuns.

Section NodeRuns.
#[local] Existing Instance Node.remote.

(** [query] against the sample node, one outcome of each kind. *)
Lemma query_outcomes_node :
  RpcQuery.query Node.rpc RpcQuery.getstakinginfo None
  = Fulfilled (Value (StakingInfo.mk 1000 60 10))
  ∧ RpcQuery.query Node.rpc RpcQuery.walletpassphrase
      (Some [RpcQuery.PString "pw"])
    = RpcQuery.throws (RpcQuery.EJError "E14")
  ∧ RpcQuery.query {| auth := auth Node.rpc; uri := "data:null" |}
      RpcQuery.getstakinginfo None
    = RpcQuery.throws RpcQuery.TypeError
  ∧ RpcQuery.query Node.rpc RpcQuery.getinfo None
    = RpcQuery.throws (RpcQuery.Error "libs/rpc: not ready")
  ∧ RpcQuery.query Node.rpc RpcQuery.stop None
    = RpcQuery.throws (RpcQuery.Error "libs/rpc: socket hang up")
  ∧ RpcQuery.query Node.rpc RpcQuery.walletlock None
    = RpcQuery.throws
        (RpcQuery.Error "libs/rpc: We did't get the expected RPC response.").
Proof.
  split; [|split; [|split]].
  - apply (query_outcomes Node.rpc RpcQuery.getstakinginfo None).
    do 2 eexists. split; [reflexivity|]. split; reflexivity.
  - apply (query_outcomes Node.rpc RpcQuery.walletpassphrase
             (Some [RpcQuery.PString "pw"])).
    do 4 eexists. split; [reflexivity|]. repeat split.
  - apply (query_outcomes {| auth := auth Node.rpc; uri := "data:null" |}
             RpcQuery.getstakinginfo None).
    do 4 right. eexists. split; reflexivity.
  - repeat split.
Defined.

(** [getStakingInfo] on a wallet bound to the node, READY and then
    reset; on wallets bound to a node that answers without a result and
    with a [null] result; and on a wallet without remote node. *)
Lemma getStakingInfo_bound_and_not :
  getStakingInfo (this Remote.bound)
  = Fulfilled (Value (WalletStakingInfo.mk 1000 60 10))
  ∧ (∃ σ, reset Remote.bound = (inr tt, σ)
          ∧ STATE (this σ) = EMPTY
          ∧ getStakingInfo (this σ)
            = Fulfilled (Value (WalletStakingInfo.mk 1000 60 10)))
  ∧ getStakingInfo (Node.bound_to "no-result") = Rejected Null
  ∧ getStakingInfo (Node.bound_to "result:null")
    = RpcQuery.throws RpcQuery.TypeError
  ∧ getStakingInfo (this Sample.generated)
    = RpcQuery.throws RpcQuery.TypeError.
Proof.
  split; [|split; [|split; [|split]]].
  - destruct (getStakingInfo_outcomes (this Remote.bound))
      as (_ & _ & Hbound).
    apply (Hbound Node.rpc eq_refl). eexists. split; reflexivity.
  - exists (reset Remote.bound).2. split; [reflexivity|]. split; [reflexivity|].
    destruct (getStakingInfo_outcomes (this Remote.bound))
      as (Hsame & _ & Hbound).
    etransitivity; [apply Hsame; reflexivity|].
    apply (Hbound Node.rpc eq_refl). eexists. split; reflexivity.
  - destruct (getStakingInfo_outcomes (Node.bound_to "no-result"))
      as (_ & _ & Hbound).
    destruct (Hbound _ eq_refl) as (_ & Hnull & _).
    apply Hnull. reflexivity.
  - destruct (getStakingInfo_outcomes (Node.bound_to "result:null"))
      as (_ & _ & Hbound).
    destruct (Hbound _ eq_refl) as (_ & _ & Hnull & _).
    apply Hnull. reflexivity.
  - now apply (getStakingInfo_outcomes (this Sample.generated)).
Defined.
End NodeRuns.
